(** * tidevice: [_safe_socket.py]

    A shallow embedding of [tidevice/_safe_socket.py] (the id allocator
    [get_uniq_id], the classes [SafeStreamSocket] and [PlistSocket]) and the
    properties of its framing, its blocking reads and its clean-up.

    Python objects are records, methods are computations in a state and
    exception monad over the object they are called on, the standard
    library modules the file imports ([struct], [socket], [plistlib], [os],
    [ssl], [weakref]) are modelled just as far as the file uses them. *)

From Stdlib Require Import ZArith Lia.
From Stdlib.Strings Require Import Byte Ascii.
From stdpp Require Import base relations list sorting strings.

Local Open Scope Z_scope.

(** ** Bytes *)

Abbreviation bytes := (list byte).

(** Python's [len]. *)
Definition len {A} (l : list A) : Z := Z.of_nat (length l).

Definition Z_of_byte (b : byte) : Z := Z.of_N (Byte.to_N b).

(** The byte holding the low eight bits of [z]. *)
Definition byte_of_Z (z : Z) : byte :=
  default x00 (Byte.of_N (Z.to_N (Z.land z 255))).

(** ** Outcomes of Python calls *)

Inductive exn :=
  | MuxError (msg : string)        (* tidevice.exceptions.MuxError *)
  | StructError                    (* struct.error *)
  | AssertionError
  | ValueError
  | TypeError
  | OSError
  | SSLError
  | NotImplementedError
  | InvalidFileException           (* plistlib.loads on malformed data *)
  | LoopFuelExhausted.             (* never raised: see [recvall_terminates] *)

Inductive outcome (A : Type) :=
  | Return (a : A)
  | Raise (e : exn).
Arguments Return {A} a.
Arguments Raise {A} e.

(** A method call on an object of state [S]: it returns or raises, and in
    both cases leaves the object in a new state. *)
Definition M (S A : Type) : Type := S -> outcome A * S.

Definition ret {S A} (a : A) : M S A := fun s => (Return a, s).
Definition raise {S A} (e : exn) : M S A := fun s => (Raise e, s).
Definition bind {S A B} (m : M S A) (k : A -> M S B) : M S B :=
  fun s => match m s with
           | (Return a, s') => k a s'
           | (Raise e, s') => (Raise e, s')
           end.
Definition gets {S A} (f : S -> A) : M S A := fun s => (Return (f s), s).
Definition modify {S} (f : S -> S) : M S unit := fun s => (Return tt, f s).
(** The result of a pure library call that may raise. *)
Definition lift_outcome {S A} (o : outcome A) : M S A := fun s => (o, s).

Notation "x <- m ;; k" := (bind m (fun x => k))
  (at level 100, m at next level, right associativity).
Notation "m ;;; k" := (bind m (fun _ => k))
  (at level 100, right associativity).

(** ** The [struct] module, formats of [I] fields

    [struct.pack] and [struct.unpack] are used with the formats ["IIII"]
    and [">I"].  A format without a prefix character uses the byte order of
    the host ([sys.byteorder]); [">"] is big-endian.  An [I] field is an
    unsigned int of four bytes; packing a value outside [0, 2^32) raises
    [struct.error]. *)

Inductive byteorder := LittleEndian | BigEndian.

Inductive fmt_prefix :=
  | NativePrefix      (* no prefix character, as in "IIII" *)
  | NetworkPrefix.    (* ">", as in ">I" *)

(** The host the program runs on. *)
Class Host := { sys_byteorder : byteorder }.

Definition order_of `{Host} (p : fmt_prefix) : byteorder :=
  match p with
  | NativePrefix => sys_byteorder
  | NetworkPrefix => BigEndian
  end.

Definition u32_le (v : Z) : bytes :=
  [ byte_of_Z v; byte_of_Z (Z.shiftr v 8);
    byte_of_Z (Z.shiftr v 16); byte_of_Z (Z.shiftr v 24) ].

Definition u32_bytes (o : byteorder) (v : Z) : bytes :=
  match o with
  | LittleEndian => u32_le v
  | BigEndian => reverse (u32_le v)
  end.

Definition le_u32 (b0 b1 b2 b3 : byte) : Z :=
  Z.lor (Z_of_byte b0)
    (Z.lor (Z.shiftl (Z_of_byte b1) 8)
       (Z.lor (Z.shiftl (Z_of_byte b2) 16) (Z.shiftl (Z_of_byte b3) 24))).

Definition bytes_u32 (o : byteorder) (b0 b1 b2 b3 : byte) : Z :=
  match o with
  | LittleEndian => le_u32 b0 b1 b2 b3
  | BigEndian => le_u32 b3 b2 b1 b0
  end.

Definition u32_ok (v : Z) : bool := (0 <=? v) && (v <? 2 ^ 32).

(** [struct.pack(prefix + "I" * n, *vals)] with [n = length vals]. *)
Fixpoint struct_pack `{Host} (p : fmt_prefix) (vals : list Z) : outcome bytes :=
  match vals with
  | [] => Return []
  | v :: vals' =>
      if u32_ok v then
        match struct_pack p vals' with
        | Return bs => Return (u32_bytes (order_of p) v ++ bs)
        | Raise e => Raise e
        end
      else Raise StructError
  end.

(** [struct.unpack(prefix + "I" * n, data)]: the buffer has to hold
    exactly [4 * n] bytes. *)
Fixpoint struct_unpack `{Host} (p : fmt_prefix) (n : nat) (data : bytes)
  : outcome (list Z) :=
  match n, data with
  | O, [] => Return []
  | S n', b0 :: b1 :: b2 :: b3 :: data' =>
      match struct_unpack p n' data' with
      | Return vs => Return (bytes_u32 (order_of p) b0 b1 b2 b3 :: vs)
      | Raise e => Raise e
      end
  | _, _ => Raise StructError
  end.

(** ** The [socket] module: a connected stream socket

    [incoming] is what the peer delivers, cut into the segments in which
    the network hands it over; a read returns bytes of the first segment
    only, so it may return fewer bytes than asked for.  When no segment is
    left, or the next one is empty, the peer has closed its end and every
    read returns the empty bytes object.  (A read on a connection that is
    open and silent blocks; a blocked read is a run that does not end and
    has no state here.)  [outgoing] is everything written so far,
    [recv_calls] the buffer sizes of the reads made so far, latest first. *)

Record socket := {
  sock_id : nat;                 (* which Python socket object this is *)
  incoming : list bytes;
  outgoing : bytes;
  recv_calls : list Z;
  is_ssl : bool                  (* an ssl.SSLSocket *)
}.

(** [sock.recv(bufsize)] for [0 <= bufsize]. *)
Definition sock_recv (bufsize : Z) : M socket bytes := fun s =>
  let logged inc :=
    {| sock_id := sock_id s; incoming := inc; outgoing := outgoing s;
       recv_calls := bufsize :: recv_calls s; is_ssl := is_ssl s |} in
  match incoming s with
  | [] => (Return [], logged [])
  | [] :: rest => (Return [], logged ([] :: rest))
  | seg :: rest =>
      let n := Z.to_nat bufsize in
      match drop n seg with
      | [] => (Return (take n seg), logged rest)
      | seg' => (Return (take n seg), logged (seg' :: rest))
      end
  end.

(** [sock.sendall(data)]. *)
Definition sock_sendall (data : bytes) : M socket unit := fun s =>
  (Return tt,
   {| sock_id := sock_id s; incoming := incoming s;
      outgoing := outgoing s ++ data;
      recv_calls := recv_calls s; is_ssl := is_ssl s |}).

(** The bytes that can still be read before the peer's close. *)
Fixpoint avail (segs : list bytes) : bytes :=
  match segs with
  | [] => []
  | [] :: _ => []
  | seg :: rest => seg ++ avail rest
  end.

(** ** The process and its surroundings

    What the module reaches outside its own objects: the file system
    ([os.path]), the builtin [int], the outcome of a connection attempt and
    of the steps of a TLS set-up. *)

Inductive family := AF_INET | AF_UNIX.

Inductive sockaddr :=
  | HostPort (host : string) (port : Z)   (* the tuple (host, port) *)
  | Path (path : string)                  (* a string, unchanged *)
  | Object.                               (* any other Python object *)

Class Env := {
  path_exists : string -> bool;           (* os.path.exists *)
  path_isfile : string -> bool;           (* os.path.isfile *)
  py_int : string -> option Z;            (* int(s); None: ValueError *)
  (* sock.connect(addr): None when the attempt fails, else the segments
     the peer is going to deliver *)
  connect_peer : family -> sockaddr -> option (list bytes);
  load_cert_chain_ok : string -> bool;    (* context.load_cert_chain *)
  handshake_ok : nat -> bool              (* context.wrap_socket, per socket *)
}.

(** What the process does to the operating system, in order. *)
Inductive event :=
  | EvConnect (id : nat) (f : family) (a : sockaddr)
  | EvDup (id new_id : nat)
  | EvDetach (id : nat)
  | EvHandshake (id : nat)
  | EvClose (id : nat).

Global Instance family_eq_dec : EqDecision family.
Proof. solve_decision. Defined.
Global Instance sockaddr_eq_dec : EqDecision sockaddr.
Proof. solve_decision. Defined.
Global Instance event_eq_dec : EqDecision event.
Proof. solve_decision. Defined.

Record world := {
  _n : Z;                  (* the module's counter, [_n[0]] *)
  next_sock_id : nat;      (* the next socket object to be created *)
  events : list event
}.

Definition log_event (e : event) (w : world) : world :=
  {| _n := _n w; next_sock_id := next_sock_id w; events := events w ++ [e] |}.

(** How often [close()] has been called on socket object [id]. *)
Definition close_calls (w : world) (id : nat) : nat :=
  length (filter (λ e, e = EvClose id) (events w)).

(** ** [get_uniq_id]

    The body runs with [_nlock] held, so calls of different threads take
    effect one after the other: a call is one step on the counter. *)
Definition get_uniq_id : M world Z := fun w =>
  let n := _n w + 1 in
  (Return n, {| _n := n; next_sock_id := next_sock_id w; events := events w |}).

(** ** [class SafeStreamSocket] *)

Record SafeStreamSocket := {
  _id : Z;
  _name : option string;
  _sock : socket;
  (* the list object shared with the finalizer, as socket object ids *)
  _sock_gclist : list nat;
  finalizer_alive : bool    (* [self._finalizer.alive] *)
}.

Definition set_sock (s : socket) (c : SafeStreamSocket) : SafeStreamSocket :=
  {| _id := _id c; _name := _name c; _sock := s;
     _sock_gclist := _sock_gclist c; finalizer_alive := finalizer_alive c |}.

Definition set_gclist (l : list nat) (c : SafeStreamSocket) : SafeStreamSocket :=
  {| _id := _id c; _name := _name c; _sock := _sock c;
     _sock_gclist := l; finalizer_alive := finalizer_alive c |}.

Definition set_finalizer_alive (b : bool) (c : SafeStreamSocket)
  : SafeStreamSocket :=
  {| _id := _id c; _name := _name c; _sock := _sock c;
     _sock_gclist := _sock_gclist c; finalizer_alive := b |}.

Definition set_name (n : string) (c : SafeStreamSocket) : SafeStreamSocket :=
  {| _id := _id c; _name := Some n; _sock := _sock c;
     _sock_gclist := _sock_gclist c; finalizer_alive := finalizer_alive c |}.

(** A call [self._sock.m(...)]. *)
Definition call_sock {A} (m : M socket A) : M SafeStreamSocket A := fun c =>
  let '(r, s) := m (_sock c) in (r, set_sock s c).

(** The argument [addr] of the constructor. *)
Inductive address :=
  | AddrSocket (s : socket)                 (* isinstance(addr, socket.socket) *)
  | AddrStr (a : string)                    (* isinstance(addr, str) *)
  | AddrTuple (host : string) (port : Z)
  | AddrOther.

(** [':' in a] and [a.split(":", 1)] at once: the parts before and after
    the first colon, if there is one. *)
Fixpoint split_colon (a : string) : option (string * string) :=
  match a with
  | EmptyString => None
  | String c rest =>
      if Ascii.eqb c ":"%char then Some (EmptyString, rest)
      else match split_colon rest with
           | Some (host, port) => Some (String c host, port)
           | None => None
           end
  end.

(** The branches of [__init__] that choose the family and the address to
    connect to (lines 47 to 57). *)
Definition init_family `{Env} (addr : address) : outcome (family * sockaddr) :=
  match addr with
  | AddrStr a =>
      match split_colon a with
      | Some (host, port) =>
          match py_int port with
          | Some p => Return (AF_INET, HostPort host p)
          | None => Raise ValueError
          end
      | None =>
          if path_exists a then Return (AF_UNIX, Path a)
          else Raise (MuxError ("socket unix:" +:+ a +:+ " unable to connect"))
      end
  | AddrTuple host port => Return (AF_INET, HostPort host port)
  | _ => Return (AF_INET, Object)
  end.

(** [socket.socket(family, SOCK_STREAM)] followed by [connect(addr)]. *)
Definition socket_connect `{Env} (f : family) (a : sockaddr) : M world socket :=
  fun w =>
    let id := next_sock_id w in
    let w' := {| _n := _n w; next_sock_id := S id;
                 events := events w ++ [EvConnect id f a] |} in
    match a with
    | Object => (Raise TypeError, w')
    | _ =>
        match connect_peer f a with
        | Some segs =>
            (Return {| sock_id := id; incoming := segs; outgoing := [];
                       recv_calls := []; is_ssl := false |}, w')
        | None => (Raise OSError, w')
        end
    end.

Definition SafeStreamSocket__init__ `{Env} (addr : address)
  : M world SafeStreamSocket :=
  id <- get_uniq_id ;;
  sock <- match addr with
          | AddrSocket s => ret s
          | _ =>
              fa <- lift_outcome (init_family addr) ;;
              socket_connect fa.1 fa.2
          end ;;
  ret {| _id := id; _name := None; _sock := sock;
         _sock_gclist := [sock_id sock]; finalizer_alive := true |}.

(** [_cleanup(socks)]: one [close()] on every socket of the list. *)
Definition _cleanup (socks : list nat) (w : world) : world :=
  {| _n := _n w; next_sock_id := next_sock_id w;
     events := events w ++ map EvClose socks |}.

(** [close]: the call of a [weakref.finalize] object runs its callback if
    it is alive, marking it dead first, and does nothing if it is dead. *)
Definition close : M (world * SafeStreamSocket) unit := fun '(w, c) =>
  if finalizer_alive c then
    (Return tt, (_cleanup (_sock_gclist c) w, set_finalizer_alive false c))
  else (Return tt, (w, c)).

Definition closed (c : SafeStreamSocket) : bool := negb (finalizer_alive c).

Definition recv (bufsize : Z) : M SafeStreamSocket bytes :=
  call_sock (sock_recv bufsize).

(** The loop of [recvall].  Every turn that does not raise makes [buf]
    longer, so [size] turns are enough; [fuel] counts them. *)
Fixpoint recvall_loop (fuel : nat) (size : Z) (buf : bytes)
  : M SafeStreamSocket bytes :=
  if len buf <? size then
    match fuel with
    | O => raise LoopFuelExhausted
    | S fuel' =>
        chunk <- call_sock (sock_recv (size - len buf)) ;;
        match chunk with
        | [] => raise (MuxError "socket connection broken")
        | _ => recvall_loop fuel' size (buf ++ chunk)
        end
    end
  else ret buf.

Definition recvall (size : Z) : M SafeStreamSocket bytes :=
  recvall_loop (Z.to_nat size) size [].

(** [sendall], for a send that goes through: the whole of [data] is
    written.  The send timeout the source sets around the call, and a send
    that fails or is cut short, have no counterpart here; what is stated
    of a send is stated of one that was made. *)
Definition sendall (data : bytes) : M SafeStreamSocket unit :=
  call_sock (sock_sendall data).

(** Whether the socket object has no descriptor any more: [close()] has
    been called on it, or [detach()]. *)
Definition sock_closed (w : world) (id : nat) : bool :=
  bool_decide (EvClose id ∈ events w \/ EvDetach id ∈ events w).

(** [switch_to_ssl].  Of the standard library: an SSL socket refuses
    [dup()] ([NotImplementedError]), a socket without descriptor fails it
    ([OSError]); [wrap_socket] makes the SSL socket on the descriptor of
    the socket it is given, detaches that socket, and runs the handshake,
    closing the SSL socket when the handshake fails. *)
Definition switch_to_ssl `{Env} (pemfile : string)
  : M (world * SafeStreamSocket) unit := fun '(w, c) =>
  if negb (path_isfile pemfile) then (Raise AssertionError, (w, c))
  else if is_ssl (_sock c) then (Raise NotImplementedError, (w, c))
  else if sock_closed w (sock_id (_sock c)) then (Raise OSError, (w, c))
  else
    (* self._dup_sock = self._sock.dup(); self._sock_gclist.append(...) *)
    let dup_id := next_sock_id w in
    let w1 := {| _n := _n w; next_sock_id := S dup_id;
                 events := events w ++ [EvDup (sock_id (_sock c)) dup_id] |} in
    let c1 := set_gclist (_sock_gclist c ++ [dup_id]) c in
    (* the context; a refused cipher list is ignored *)
    if negb (load_cert_chain_ok pemfile) then (Raise SSLError, (w1, c1))
    else
      (* context.wrap_socket(self._sock, ...) *)
      let ssl_id := next_sock_id w1 in
      let w2 := {| _n := _n w1; next_sock_id := S ssl_id;
                   events := events w1 ++ [EvDetach (sock_id (_sock c));
                                           EvHandshake ssl_id] |} in
      if negb (handshake_ok (sock_id (_sock c)))
      then (Raise SSLError, (log_event (EvClose ssl_id) w2, c1))
      else
        let ssock := {| sock_id := ssl_id;
                        incoming := incoming (_sock c);
                        outgoing := outgoing (_sock c);
                        recv_calls := recv_calls (_sock c);
                        is_ssl := true |} in
        (* self._sock = ssock *)
        (Return tt, (w2, set_sock ssock c1)).

(** ** [plistlib]

    The payloads and their serialised form are the library's business. *)
Class Plistlib (payload : Type) := {
  dumps : payload -> bytes;
  loads : bytes -> option payload     (* None: the data is not a plist *)
}.

(** ** [class PlistSocket(SafeStreamSocket)] *)

Record PlistSocket := {
  base : SafeStreamSocket;
  _tag : Z;
  _first : bool
}.

Definition set_base (c : SafeStreamSocket) (p : PlistSocket) : PlistSocket :=
  {| base := c; _tag := _tag p; _first := _first p |}.

Definition set_first (b : bool) (p : PlistSocket) : PlistSocket :=
  {| base := base p; _tag := _tag p; _first := b |}.

(** A call of a method inherited from [SafeStreamSocket]. *)
Definition inherited {A} (m : M SafeStreamSocket A) : M PlistSocket A :=
  fun p => let '(r, c) := m (base p) in (r, set_base c p).

(** The argument [addr] of [PlistSocket.__init__]. *)
Inductive plist_address :=
  | Addr (a : address)
  | AddrPlistSocket (p : PlistSocket).

Definition PlistSocket__init__ `{Env} (addr : plist_address) (tag : Z)
  : M world PlistSocket :=
  c <- SafeStreamSocket__init__
         match addr with Addr a => a | AddrPlistSocket _ => AddrOther end ;;
  match addr with
  | AddrPlistSocket p =>
      ret {| base := c; _tag := _tag p; _first := _first p |}
  | Addr _ => ret {| base := c; _tag := tag; _first := true |}
  end.

Section Packets.
Context `{Host} {payload : Type} `{Plistlib payload}.

Definition send_packet (pl : payload) (message_type : Z) : M PlistSocket unit :=
  let body_data := dumps pl in
  first <- gets _first ;;
  tag <- gets _tag ;;
  header <- lift_outcome
    (if first then
       let length := 16 + len body_data in
       struct_pack NativePrefix [length; 1; message_type; tag]
     else struct_pack NetworkPrefix [len body_data]) ;;
  inherited (sendall (header ++ body_data)).

Definition recv_packet (header_size : option Z) : M PlistSocket payload :=
  first <- gets _first ;;
  length <-
    (if first || bool_decide (header_size = Some 16) then
       header <- inherited (recvall 16) ;;
       fields <- lift_outcome (struct_unpack NativePrefix 4 header) ;;
       match fields with
       | [length; version; resp; tag] =>
           modify (set_first false) ;;;
           ret (length - 16)
       | _ => raise ValueError
       end
     else
       header <- inherited (recvall 4) ;;
       fields <- lift_outcome (struct_unpack NetworkPrefix 1 header) ;;
       match fields with
       | [length] => ret length
       | _ => raise ValueError
       end) ;;
  body_data <- inherited (recvall length) ;;
  match loads body_data with
  | Some pl => ret pl
  | None => raise InvalidFileException
  end.

Definition send_recv_packet (pl : payload) : M PlistSocket payload :=
  send_packet pl 8 ;;;
  recv_packet None.
End Packets.

(** ** Notions used in the statements *)

(** The bytes the connection can still read. *)
Definition pending (c : SafeStreamSocket) : bytes := avail (incoming (_sock c)).

(** Everything the channel has written. *)
Definition wire (p : PlistSocket) : bytes := outgoing (_sock (base p)).

(** The error of [recvall] on a closed connection. *)
Definition broken : exn := MuxError "socket connection broken".

(** [c'] is [c] after some reads: only the input side of its socket moved. *)
Definition reads_only (c c' : SafeStreamSocket) : Prop :=
  c' = set_sock {| sock_id := sock_id (_sock c);
                   incoming := incoming (_sock c');
                   outgoing := outgoing (_sock c);
                   recv_calls := recv_calls (_sock c');
                   is_ssl := is_ssl (_sock c) |} c.

(** The channel after [data] has been written to its socket. *)
Definition written (data : bytes) (p : PlistSocket) : PlistSocket :=
  set_base (set_sock {| sock_id := sock_id (_sock (base p));
                        incoming := incoming (_sock (base p));
                        outgoing := wire p ++ data;
                        recv_calls := recv_calls (_sock (base p));
                        is_ssl := is_ssl (_sock (base p)) |} (base p)) p.

(** One turn of the loop of [recvall size] that does not raise: from
    [(buf, c)] with [buf] too short, a read of at least one byte. *)
Inductive recvall_turn (size : Z)
  : bytes * SafeStreamSocket -> bytes * SafeStreamSocket -> Prop :=
  | turn_read buf c chunk c' :
      len buf < size ->
      call_sock (sock_recv (size - len buf)) c = (Return chunk, c') ->
      chunk <> [] ->
      recvall_turn size (buf, c) (buf ++ chunk, c').

(** The loop stands at [(buf, c)], [buf] is short of [size], and the read
    it makes returns no byte. *)
Definition zero_byte_read (size : Z) (st : bytes * SafeStreamSocket) : Prop :=
  len st.1 < size /\
  (call_sock (sock_recv (size - len st.1)) st.2).1 = Return [].

(** A sequence of calls of [get_uniq_id], each by some thread, in the
    order in which the lock lets them in; the result pairs every caller
    with the value it got. *)
Fixpoint get_uniq_ids (threads : list nat) : M world (list (nat * Z)) :=
  match threads with
  | [] => ret []
  | t :: threads' =>
      n <- get_uniq_id ;;
      rest <- get_uniq_ids threads' ;;
      ret ((t, n) :: rest)
  end.

(** [k] calls of [close] in a row. *)
Fixpoint close_times (k : nat) : M (world * SafeStreamSocket) unit :=
  match k with
  | O => ret tt
  | S k' => close ;;; close_times k'
  end.

(** The connection's list of sockets has no socket twice, and all of them
    are sockets the process has created already. *)
Definition owned_ok (w : world) (c : SafeStreamSocket) : Prop :=
  NoDup (_sock_gclist c) /\
  Forall (λ id, (id < next_sock_id w)%nat) (_sock_gclist c).

Section Calls.
Context `{Host} {payload : Type} `{Plistlib payload}.

(** A call on a channel by its user. *)
Inductive call :=
  | CallSend (pl : payload) (message_type : Z)
  | CallRecv (header_size : option Z).

(** The channel after the call, whether it returned or raised. *)
Definition after_call (p : PlistSocket) (c : call) : PlistSocket :=
  match c with
  | CallSend pl mt => (send_packet pl mt p).2
  | CallRecv hs => (recv_packet hs p).2
  end.

Definition after_calls (p : PlistSocket) (cs : list call) : PlistSocket :=
  foldl after_call p cs.
End Calls.

(** ** Concrete surroundings, to run the definitions *)

Definition little_host : Host := {| sys_byteorder := LittleEndian |}.
Definition big_host : Host := {| sys_byteorder := BigEndian |}.

(** A stand-in for [plistlib] whose payloads are their own serialised
    form. *)
Definition raw_plistlib : Plistlib bytes :=
  {| dumps := λ pl, pl; loads := λ data, Some data |}.

Definition digit_of (c : ascii) : option Z :=
  let n := Z.of_N (N_of_ascii c) in
  if (48 <=? n) && (n <=? 57) then Some (n - 48) else None.

Fixpoint decimal (acc : Z) (s : string) : option Z :=
  match s with
  | EmptyString => Some acc
  | String c rest =>
      match digit_of c with
      | Some d => decimal (10 * acc + d) rest
      | None => None
      end
  end.

(** A machine on which only the usbmuxd socket and one pairing file
    exist, every connection attempt succeeds and meets a silent peer;
    [int] reads plain decimal numerals. *)
Definition demo_env : Env :=
  {| path_exists := λ p, bool_decide (p = "/var/run/usbmuxd" \/ p = "/tmp/pair.pem");
     path_isfile := λ p, bool_decide (p = "/tmp/pair.pem");
     py_int := λ s, match s with EmptyString => None | _ => decimal 0 s end;
     connect_peer := λ _ _, Some [];
     load_cert_chain_ok := λ _, true;
     handshake_ok := λ _, true |}.

Definition demo_world : world :=
  {| _n := 0; next_sock_id := 0; events := [] |}.

(** A connected socket on which the peer delivers [segs]. *)
Definition demo_socket (segs : list bytes) : socket :=
  {| sock_id := 0; incoming := segs; outgoing := [];
     recv_calls := []; is_ssl := false |}.

Definition demo_connection (segs : list bytes) : SafeStreamSocket :=
  {| _id := 1; _name := None; _sock := demo_socket segs;
     _sock_gclist := [0%nat]; finalizer_alive := true |}.

Definition demo_channel (first : bool) (segs : list bytes) : PlistSocket :=
  {| base := demo_connection segs; _tag := 0; _first := first |}.

(** The bytes a call on the channel adds to what it has written. *)
Definition sent_by {A} (m : M PlistSocket A) (p : PlistSocket) : bytes :=
  drop (length (wire p)) (wire (m p).2).

(** A property of the object that a call keeps, however it ends. *)
Definition preserves {S A} (P : S -> Prop) (m : M S A) : Prop :=
  forall s, P s -> P (m s).2.

(** The sixteen bytes [struct.pack("IIII", 16 + n, 1, message_type, tag)]
    on a host of byte order [o]. *)
Definition first_header (o : byteorder) (n message_type tag : Z) : bytes :=
  u32_bytes o (16 + n) ++ u32_bytes o 1 ++
  u32_bytes o message_type ++ u32_bytes o tag.

(** [':' in a]. *)
Fixpoint contains_colon (a : string) : bool :=
  match a with
  | EmptyString => false
  | String c rest => Ascii.eqb c ":"%char || contains_colon rest
  end.

(** The world after the construction of [demo_connection] from the
    address of the usbmuxd socket. *)
Definition demo_started : world :=
  {| _n := 1; next_sock_id := 1;
     events := [EvConnect 0 AF_UNIX (Path "/var/run/usbmuxd")] |}.

(** ** The rest of the classes *)

(** [PlistSocket.is_secure]. *)
Definition is_secure (p : PlistSocket) : bool := is_ssl (_sock (base p)).

(** A call, on a channel, of a method inherited from [SafeStreamSocket]
    that also acts on the process. *)
Definition inherited_w {A} (m : M (world * SafeStreamSocket) A)
  : M (world * PlistSocket) A := fun '(w, p) =>
  let '(r, (w', c)) := m (w, base p) in (r, (w', set_base c p)).



(** ** [class PlistSocketProperty]

    The object holds a reference to the channel and a finalizer of its
    own, whose callback is the channel's [close]. *)
Record PlistSocketProperty := {
  _psock : PlistSocket;
  property_finalizer_alive : bool
}.



(** A call [self.psock.m(...)]. *)
Definition call_psock {A} (m : M PlistSocket A) : M PlistSocketProperty A :=
  fun f => let '(r, p) := m (_psock f) in
           (r, {| _psock := p;
                  property_finalizer_alive := property_finalizer_alive f |}).

Section Facade.
Context `{Host} {payload : Type} `{Plistlib payload}.

Definition property_send_packet (pl : payload) (message_type : Z)
: M PlistSocketProperty unit :=
call_psock (send_packet pl message_type).

Definition property_recv_packet (header_size : option Z)
: M PlistSocketProperty payload :=
call_psock (recv_packet header_size).
End Facade.



(** ** Further notions used in the statements *)

(** Two channels that differ at most in how the bytes still to be read
    are cut into segments, and in what they have read and written. *)
Definition same_stream (q1 q2 : PlistSocket) : Prop :=
  _first q1 = _first q2 /\ pending (base q1) = pending (base q2).

(** The call ends alike, and leaves alike, on channels that are alike. *)
Definition segment_blind {A} (m : M PlistSocket A) : Prop :=
  forall q1 q2, same_stream q1 q2 ->
    (m q1).1 = (m q2).1 /\ same_stream (m q1).2 (m q2).2.

Section Streams.
Context `{Host} {payload : Type} `{Plistlib payload}.

(** The payloads sent one after the other. *)
Fixpoint send_packets (pls : list payload) (message_type : Z)
: M PlistSocket unit :=
match pls with
| [] => ret tt
| pl :: pls' => send_packet pl message_type ;;; send_packets pls' message_type
end.

(** [k] packets received one after the other. *)
Fixpoint recv_packets (k : nat) : M PlistSocket (list payload) :=
match k with
| O => ret []
| S k' =>
    pl <- recv_packet None ;;
    pls <- recv_packets k' ;;
    ret (pl :: pls)
end.

(** The frame of a payload on the wire after the first message. *)
Definition later_frame (pl : payload) : bytes :=
u32_bytes BigEndian (len (dumps pl)) ++ dumps pl.
End Streams.

(** The machine of [demo_env] with a peer that refuses every TLS
    handshake. *)
Definition demo_env_no_tls : Env :=
  {| path_exists := @path_exists demo_env;
     path_isfile := @path_isfile demo_env;
     py_int := @py_int demo_env;
     connect_peer := @connect_peer demo_env;
     load_cert_chain_ok := λ _, true;
     handshake_ok := λ _, false |}.

(** The buffer sizes of the reads of [recvall(size)] that get [chunks],
    after [got] bytes: each read asks for what is still missing. *)
Fixpoint read_requests (size got : Z) (chunks : list bytes) : list Z :=
  match chunks with
  | [] => []
  | chunk :: chunks' =>
      (size - got) :: read_requests size (got + len chunk) chunks'
  end.

(** * Properties *)

(** ** Lengths and bytes *)

Lemma len_app {A} (l k : list A) : len (l ++ k) = len l + len k.
Proof. unfold len. rewrite length_app. lia. Qed.

Lemma len_nonneg {A} (l : list A) : 0 <= len l.
Proof. unfold len. lia. Qed.

Lemma Z_of_byte_of_Z z : Z_of_byte (byte_of_Z z) = Z.land z 255.
Proof.
  unfold Z_of_byte, byte_of_Z.
  assert (Hr : 0 <= Z.land z 255 < 256).
  { change 255 with (Z.ones 8). rewrite Z.land_ones by lia.
    apply Z.mod_pos_bound. lia. }
  destruct (Byte.of_N (Z.to_N (Z.land z 255))) as [b|] eqn:E; simpl.
  - apply Byte.to_of_N in E. rewrite E. lia.
  - apply Byte.of_N_None_iff in E. lia.
Qed.

(** Bit [n] of the byte taken at bit [k] of [v], put back at bit [k]. *)
Lemma testbit_field v k n :
  0 <= k -> 0 <= n ->
  Z.testbit (Z.shiftl (Z_of_byte (byte_of_Z (Z.shiftr v k))) k) n
  = Z.testbit v n && ((k <=? n) && (n <? k + 8)).
Proof.
  intros Hk Hn. rewrite Z_of_byte_of_Z, Z.shiftl_spec by lia.
  destruct (Z.leb_spec k n).
  - rewrite Z.land_spec, Z.shiftr_spec by lia.
    replace (n - k + k) with n by lia. f_equal.
    change 255 with (Z.ones 8). rewrite Z.testbit_ones_nonneg by lia.
    simpl. destruct (Z.ltb_spec (n - k) 8), (Z.ltb_spec n (k + 8)); lia || done.
  - rewrite Z.testbit_neg_r by lia. by rewrite andb_false_r.
Qed.

Lemma le_u32_u32_le v :
  0 <= v < 2 ^ 32 ->
  le_u32 (byte_of_Z v) (byte_of_Z (Z.shiftr v 8))
         (byte_of_Z (Z.shiftr v 16)) (byte_of_Z (Z.shiftr v 24)) = v.
Proof.
  intros Hv. unfold le_u32.
  rewrite <- (Z.shiftr_0_r v) at 1.
  rewrite <- (Z.shiftl_0_r (Z_of_byte _)) at 1.
  apply Z.bits_inj'. intros n Hn.
  rewrite !Z.lor_spec, !testbit_field by lia.
  destruct (Z.ltb_spec n 32).
  - destruct (Z.testbit v n); simpl; [|done].
    destruct (Z.leb_spec 0 n), (Z.ltb_spec n (0 + 8)), (Z.leb_spec 8 n),
      (Z.ltb_spec n (8 + 8)), (Z.leb_spec 16 n), (Z.ltb_spec n (16 + 8)),
      (Z.leb_spec 24 n), (Z.ltb_spec n (24 + 8)); simpl; lia || done.
  - rewrite <- (Z.mod_small v (2 ^ 32)) by lia.
    rewrite Z.mod_pow2_bits_high by lia. done.
Qed.

Lemma u32_ok_spec v : u32_ok v = true <-> 0 <= v < 2 ^ 32.
Proof. unfold u32_ok. rewrite andb_true_iff, Z.leb_le, Z.ltb_lt. done. Qed.

Lemma u32_bytes_length o v : length (u32_bytes o v) = 4%nat.
Proof. by destruct o. Qed.

(** ** [struct]: what is packed is what is unpacked *)

Section Struct.
Context `{Host}.

Lemma struct_unpack_u32 p v data n :
  u32_ok v = true ->
  struct_unpack p (S n) (u32_bytes (order_of p) v ++ data)
  = match struct_unpack p n data with
    | Return vs => Return (v :: vs)
    | Raise e => Raise e
    end.
Proof.
  intros Hv%u32_ok_spec.
  destruct (order_of p) eqn:Ho; simpl; rewrite Ho; simpl;
    by rewrite le_u32_u32_le.
Qed.

Lemma struct_pack_ok p vals :
  Forall (λ v, u32_ok v = true) vals ->
  struct_pack p vals = Return (concat (map (u32_bytes (order_of p)) vals)).
Proof.
  induction 1 as [|v vals Hv _ IH]; [done|].
  simpl. by rewrite Hv, IH.
Qed.

Lemma struct_pack_overflow p v vals :
  u32_ok v = false -> struct_pack p (v :: vals) = Raise StructError.
Proof. intros Hv. simpl. by rewrite Hv. Qed.

Lemma struct_unpack_pack p vals data :
  struct_pack p vals = Return data ->
  struct_unpack p (length vals) data = Return vals /\
  length data = (4 * length vals)%nat.
Proof.
  revert data. induction vals as [|v vals IH]; intros data; simpl.
  - by intros [= <-].
  - destruct (u32_ok v) eqn:Hv; [|done].
    destruct (struct_pack p vals) as [bs|] eqn:E; [|done].
    intros [= <-]. destruct (IH bs eq_refl) as [IHu IHl]. split.
    + change (struct_unpack p (S (length vals)) (u32_bytes (order_of p) v ++ bs)
              = Return (v :: vals)).
      by rewrite struct_unpack_u32, IHu.
    + rewrite length_app, u32_bytes_length. lia.
Qed.
End Struct.

(** ** Reads *)

Lemma reads_only_refl c : reads_only c c.
Proof. unfold reads_only. by destruct c as [? ? [] ? ?]. Qed.

Lemma reads_only_trans c1 c2 c3 :
  reads_only c1 c2 -> reads_only c2 c3 -> reads_only c1 c3.
Proof. unfold reads_only. intros H12 H23. rewrite H23, H12. done. Qed.

Lemma avail_cons_ne seg rest :
  seg <> [] -> avail (seg :: rest) = seg ++ avail rest.
Proof. by destruct seg. Qed.

(** One read: the chunk is a prefix of what is pending, at most [bufsize]
    long, and empty only when nothing is pending. *)
Lemma sock_recv_spec bufsize s :
  0 < bufsize ->
  exists chunk s',
    sock_recv bufsize s = (Return chunk, s') /\
    avail (incoming s) = chunk ++ avail (incoming s') /\
    len chunk <= bufsize /\
    (chunk = [] <-> avail (incoming s) = []) /\
    sock_id s' = sock_id s /\ outgoing s' = outgoing s /\
    is_ssl s' = is_ssl s /\ recv_calls s' = bufsize :: recv_calls s.
Proof.
  intros Hk. unfold sock_recv.
  destruct (incoming s) as [|seg rest] eqn:Hin.
  { eexists _, _. split; [done|]. simpl. unfold len. simpl.
    repeat split; done || lia. }
  destruct seg as [|b seg].
  { eexists _, _. split; [done|]. simpl. unfold len. simpl.
    repeat split; done || lia. }
  set (n := Z.to_nat bufsize). assert (Hn : (0 < n)%nat) by lia.
  assert (Htake : len (take n (b :: seg)) <= bufsize).
  { unfold len. rewrite length_take. lia. }
  assert (Hne : take n (b :: seg) <> []).
  { destruct n; [lia | done]. }
  destruct (drop n (b :: seg)) as [|b' seg'] eqn:Hdrop.
  - eexists _, _. split; [done|]. simpl incoming.
    rewrite avail_cons_ne by done.
    rewrite <- (take_drop n (b :: seg)) at 1. rewrite Hdrop, app_nil_r.
    repeat split; try done.
    all: intros Habs; by apply app_eq_nil in Habs as [? _].
  - eexists _, _. split; [done|]. simpl incoming.
    rewrite !avail_cons_ne by done.
    rewrite <- Hdrop, app_assoc, take_drop.
    repeat split; try done.
    all: intros Habs; by apply app_eq_nil in Habs as [? _].
Qed.

Lemma call_sock_recv_spec bufsize c :
  0 < bufsize ->
  exists chunk c',
    call_sock (sock_recv bufsize) c = (Return chunk, c') /\
    pending c = chunk ++ pending c' /\
    len chunk <= bufsize /\
    (chunk = [] <-> pending c = []) /\
    reads_only c c'.
Proof.
  intros Hk. destruct (sock_recv_spec bufsize (_sock c) Hk)
    as (chunk & s' & E & Hav & Hlen & Hnil & Hid & Hout & Hssl & Hlog).
  exists chunk, (set_sock s' c). unfold call_sock. rewrite E.
  repeat split; try done; try apply Hnil.
  unfold reads_only. simpl. rewrite <- Hid, <- Hout, <- Hssl. by destruct s'.
Qed.

Lemma recvall_loop_unfold fuel size buf :
  recvall_loop fuel size buf =
  if len buf <? size then
    match fuel with
    | O => raise LoopFuelExhausted
    | S fuel' =>
        chunk <- call_sock (sock_recv (size - len buf)) ;;
        match chunk with
        | [] => raise broken
        | _ => recvall_loop fuel' size (buf ++ chunk)
        end
    end
  else ret buf.
Proof. by destruct fuel. Qed.

(** The loop, by what is pending: with enough of it the loop returns the
    buffer filled up to [size], otherwise it raises. *)
Lemma recvall_loop_spec fuel : forall size buf c,
  size - len buf <= Z.of_nat fuel ->
  (size <= len buf + len (pending c) ->
   exists c',
     recvall_loop fuel size buf c
       = (Return (buf ++ take (Z.to_nat (size - len buf)) (pending c)), c') /\
     pending c' = drop (Z.to_nat (size - len buf)) (pending c) /\
     reads_only c c') /\
  (len buf + len (pending c) < size ->
   exists c', recvall_loop fuel size buf c = (Raise broken, c') /\
              reads_only c c').
Proof.
  induction fuel as [|fuel IH]; intros size buf c Hfuel;
    rewrite recvall_loop_unfold; destruct (Z.ltb_spec (len buf) size) as [Hlt|Hge].
  - lia.
  - split; [|pose proof (len_nonneg (pending c)); lia].
    intros _. exists c. replace (Z.to_nat (size - len buf)) with 0%nat by lia.
    rewrite take_0, app_nil_r, drop_0. auto using reads_only_refl.
  - destruct (call_sock_recv_spec (size - len buf) c) as
      (chunk & c1 & E & Hpend & Hlen & Hnil & Hro); [lia|].
    unfold bind. rewrite E.
    destruct chunk as [|b chunk].
    + assert (Hp : pending c = []) by by apply Hnil.
      split.
      * rewrite Hp. change (len (@nil byte)) with 0. lia.
      * intros _. exists c1. split; [reflexivity | exact Hro].
    + set (ch := b :: chunk) in *.
      assert (0 < len ch) by (unfold len, ch; simpl; lia).
      destruct (IH size (buf ++ ch) c1) as [IHok IHbad].
      { rewrite len_app. lia. }
      rewrite Hpend, !len_app in *.
      split.
      * intros Hen. destruct IHok as (c' & E' & Hp' & Hro'); [lia|].
        exists c'. rewrite E'. split; [|split].
        -- f_equal. f_equal. rewrite <- app_assoc. f_equal.
           rewrite take_app_ge by (unfold len in *; lia).
           f_equal. f_equal. unfold len in *. lia.
        -- rewrite Hp', drop_app_ge by (unfold len in *; lia).
           f_equal. unfold len in *. lia.
        -- eauto using reads_only_trans.
      * intros Hsh. destruct IHbad as (c' & E' & Hro'); [lia|].
        exists c'. eauto using reads_only_trans.
  - split; [|pose proof (len_nonneg (pending c)); lia].
    intros _. exists c. replace (Z.to_nat (size - len buf)) with 0%nat by lia.
    rewrite take_0, app_nil_r, drop_0. auto using reads_only_refl.
Qed.

Lemma recvall_enough size c :
  size <= len (pending c) ->
  exists c',
    recvall size c = (Return (take (Z.to_nat size) (pending c)), c') /\
    pending c' = drop (Z.to_nat size) (pending c) /\
    reads_only c c'.
Proof.
  intros Hen. destruct (recvall_loop_spec (Z.to_nat size) size [] c) as [Hok _].
  { change (len (@nil byte)) with 0. lia. }
  change (len (@nil byte)) with 0 in Hok. rewrite Z.sub_0_r in Hok.
  destruct Hok as (c' & E & Hp & Hro); [lia|]. by exists c'.
Qed.

Lemma recvall_short size c :
  len (pending c) < size ->
  exists c', recvall size c = (Raise broken, c') /\ reads_only c c'.
Proof.
  intros Hsh. destruct (recvall_loop_spec (Z.to_nat size) size [] c) as [_ Hbad].
  { change (len (@nil byte)) with 0. lia. }
  change (len (@nil byte)) with 0 in Hbad. apply Hbad. lia.
Qed.

(** With [size] turns of fuel the loop never stops for want of fuel. *)
Lemma recvall_terminates size c :
  (recvall size c).1 <> Raise LoopFuelExhausted.
Proof.
  destruct (Z_le_gt_dec size (len (pending c))) as [Hen|Hsh].
  - destruct (recvall_enough size c Hen) as (c' & -> & _). done.
  - destruct (recvall_short size c) as (c' & -> & _); [lia | done].
Qed.

(** The loop raises its error exactly when its turns lead to a read of no
    byte made while the buffer is short. *)
Lemma recvall_loop_broken_turns size fuel : forall buf c c',
  recvall_loop fuel size buf c = (Raise broken, c') ->
  exists st, rtc (recvall_turn size) (buf, c) st /\ zero_byte_read size st.
Proof.
  induction fuel as [|fuel IH]; intros buf c c';
    rewrite recvall_loop_unfold; destruct (Z.ltb_spec (len buf) size) as [Hlt|Hge];
    try done.
  destruct (call_sock_recv_spec (size - len buf) c) as
    (chunk & c1 & E & _ & _ & _ & _); [lia|].
  unfold bind. rewrite E. destruct chunk as [|b chunk].
  - intros _. exists (buf, c). split; [apply rtc_refl|].
    split; [done|]. simpl. by rewrite E.
  - intros Hrec. destruct (IH _ _ _ Hrec) as (st & Hrtc & Hz).
    exists st. split; [|done].
    eapply rtc_l; [|exact Hrtc]. by constructor.
Qed.

Lemma recvall_turns_loop_broken size st1 st2 :
  rtc (recvall_turn size) st1 st2 ->
  zero_byte_read size st2 ->
  forall fuel, size - len st1.1 <= Z.of_nat fuel ->
  exists c', recvall_loop fuel size st1.1 st1.2 = (Raise broken, c').
Proof.
  induction 1 as [[buf c]|[buf c] st2 st3 Hturn _ IH]; intros Hz fuel Hfuel;
    simpl in *; rewrite recvall_loop_unfold.
  - destruct Hz as [Hlt Hread]. simpl in *.
    destruct (Z.ltb_spec (len buf) size); [|lia].
    destruct fuel as [|fuel]; [lia|]. unfold bind.
    destruct (call_sock (sock_recv (size - len buf)) c) as [r c1].
    simpl in Hread. subst r. by exists c1.
  - inversion Hturn as [? ? chunk c1 Hlt E Hne]; subst.
    destruct (Z.ltb_spec (len buf) size); [|lia].
    destruct fuel as [|fuel]; [lia|]. unfold bind. rewrite E.
    assert (0 < len chunk).
    { unfold len. destruct chunk; [done | simpl; lia]. }
    destruct (IH Hz fuel) as [c' E']; [simpl; rewrite len_app; lia|].
    exists c'. by destruct chunk.
Qed.

(** The loop as a run of its turns: from [(buf, c)] the turns lead to the
    state at which the loop ends, either with the buffer filled, which is
    what it returns, or at a read of no byte, after which it raises. *)
Lemma recvall_loop_run fuel : forall size buf c,
  size - len buf <= Z.of_nat fuel ->
  exists buf' c1,
    rtc (recvall_turn size) (buf, c) (buf', c1) /\
    buf' ++ pending c1 = buf ++ pending c /\
    ((recvall_loop fuel size buf c = (Return buf', c1) /\
      len buf' = Z.max (len buf) size) \/
     (zero_byte_read size (buf', c1) /\
      recvall_loop fuel size buf c
      = (Raise broken, (call_sock (sock_recv (size - len buf')) c1).2) /\
      pending c1 = [] /\
      pending (call_sock (sock_recv (size - len buf')) c1).2 = [])).
Proof.
  induction fuel as [|fuel IH]; intros size buf c Hfuel;
    rewrite recvall_loop_unfold;
    destruct (Z.ltb_spec (len buf) size) as [Hlt|Hge]; try lia.
  1,3: exists buf, c; split; [apply rtc_refl|]; split; [done|];
       left; split; [done | lia].
  destruct (call_sock_recv_spec (size - len buf) c) as
    (chunk & c1 & E & Hpend & Hlen & Hnil & _); [lia|].
  unfold bind. rewrite E. destruct chunk as [|b chunk].
  - assert (Hp : pending c = []) by by apply Hnil.
    exists buf, c. split; [apply rtc_refl|]. split; [done|]. right.
    rewrite E. split; [|split; [done|split; [done|]]].
    + split; [done|]. simpl. by rewrite E.
    + simpl. rewrite Hp in Hpend. by simpl in Hpend.
  - set (ch := b :: chunk) in *.
    assert (0 < len ch) by (unfold len, ch; simpl; lia).
    destruct (IH size (buf ++ ch) c1) as (buf' & c2 & Hrtc & Hcat & Hend).
    { rewrite len_app. lia. }
    exists buf', c2. split; [|split].
    + eapply rtc_l; [|exact Hrtc]. by constructor.
    + by rewrite Hcat, Hpend, app_assoc.
    + rewrite len_app in Hend.
      destruct Hend as [[E' Hl] | Hz]; [left | by right].
      split; [done|]. lia.
Qed.

(** C5, as amended.  For every [n], whatever the segments in which the
    bytes arrive, [recvall(n)] is the run of the turns of its loop, each a
    read for the bytes still missing that adds what it gets to the
    buffer.  The run ends in one of two ways: with the buffer filled, and
    then the call returns the buffer, which holds the first [max(n, 0)]
    bytes that were to come, the bytes after them being left to be read;
    or at a read that returns no byte while the buffer is shorter than
    [n], and then the call raises "socket connection broken", all that
    arrived having been read.  So it raises exactly when one of its reads
    returns no byte on a short buffer, which is exactly when fewer than
    [n] bytes arrive before the peer closes. *)
Theorem recvall_chunked (n : Z) (c : SafeStreamSocket) :
  (exists buf c1,
     rtc (recvall_turn n) ([], c) (buf, c1) /\
     buf ++ pending c1 = pending c /\
     ((recvall n c = (Return buf, c1) /\
       len buf = Z.max 0 n /\
       buf = take (Z.to_nat n) (pending c) /\
       pending c1 = drop (Z.to_nat n) (pending c) /\
       n <= len (pending c)) \/
      (zero_byte_read n (buf, c1) /\
       recvall n c
       = (Raise broken, (call_sock (sock_recv (n - len buf)) c1).2) /\
       buf = pending c /\ len (pending c) < n /\
       pending (recvall n c).2 = []))) /\
  (forall r c', recvall n c = (r, c') ->
     (exists buf, r = Return buf /\ len buf = Z.max 0 n /\
                  buf = take (Z.to_nat n) (pending c)) \/
     r = Raise broken) /\
  ((recvall n c).1 = Raise broken <->
   exists st, rtc (recvall_turn n) ([], c) st /\ zero_byte_read n st) /\
  ((recvall n c).1 = Raise broken <-> len (pending c) < n).
Proof.
  assert (Hrun : exists buf c1,
     rtc (recvall_turn n) ([], c) (buf, c1) /\
     buf ++ pending c1 = pending c /\
     ((recvall n c = (Return buf, c1) /\
       len buf = Z.max 0 n /\
       buf = take (Z.to_nat n) (pending c) /\
       pending c1 = drop (Z.to_nat n) (pending c) /\
       n <= len (pending c)) \/
      (zero_byte_read n (buf, c1) /\
       recvall n c
       = (Raise broken, (call_sock (sock_recv (n - len buf)) c1).2) /\
       buf = pending c /\ len (pending c) < n /\
       pending (recvall n c).2 = []))).
  { destruct (recvall_loop_run (Z.to_nat n) n [] c)
      as (buf & c1 & Hrtc & Hcat & Hend).
    { change (len (@nil byte)) with 0. lia. }
    change (len (@nil byte)) with 0 in Hend. simpl in Hcat.
    exists buf, c1. split; [done|]. split; [done|].
    destruct Hend as [[E Hl] | (Hz & E & Hp1 & Hp2)]; [left | right].
    - assert (Hn : Z.to_nat n = length buf) by (unfold len in Hl; lia).
      split; [done|]. split; [done|]. rewrite <- Hcat, Hn.
      rewrite take_app_length, drop_app_length, len_app.
      pose proof (len_nonneg (pending c1)). repeat split; try done. lia.
    - destruct Hz as [Hlt Hread]. simpl in Hlt.
      rewrite Hp1, app_nil_r in Hcat. subst buf.
      unfold recvall in *. rewrite E.
      repeat split; try done. }
  assert (Hiff : (recvall n c).1 = Raise broken <-> len (pending c) < n).
  { destruct Hrun as (buf & c1 & _ & _ & [(-> & _ & _ & _ & Hen) |
                                          (_ & -> & _ & Hsh & _)]); simpl.
    - split; [done | lia].
    - done. }
  split; [exact Hrun|]. split; [|split; [|exact Hiff]].
  - intros r c' E.
    destruct Hrun as (buf & c1 & _ & _ & [(E1 & Hl & Ht & _) | (_ & E1 & _)]);
      rewrite E1 in E; injection E as <- <-; [left | by right].
    by exists buf.
  - split.
    + intros E. destruct (recvall n c) as [r c'] eqn:Er. simpl in E. subst r.
      by eapply recvall_loop_broken_turns.
    + intros (st & Hrtc & Hz).
      destruct (recvall_turns_loop_broken n _ _ Hrtc Hz (Z.to_nat n)) as [c' E].
      { simpl. change (len (@nil byte)) with 0. lia. }
      unfold recvall. simpl in E. by rewrite E.
Qed.

Lemma recvall_chunked_witness :
  (recvall 3 (demo_connection [[x01]; [x02]; [x03; x04]])).1
    = Return [x01; x02; x03] /\
  ((recvall 3 (demo_connection [[x01]; [x02]])).1 = Raise broken <->
   len (pending (demo_connection [[x01]; [x02]])) < 3).
Proof.
  split; [reflexivity|].
  apply (recvall_chunked 3 (demo_connection [[x01]; [x02]])).
Defined.

(** C5 as stated fails on a negative [n]: the call returns at once with
    the empty buffer, which is not [n] bytes, and it does so even on a
    connection the peer has closed. *)
Lemma recvall_negative_size :
  recvall (-1) (demo_connection []) = (Return [], demo_connection []) /\
  recvall (-1) (demo_connection [[x01; x02]])
  = (Return [], demo_connection [[x01; x02]]) /\
  len (@nil byte) <> -1.
Proof. by repeat split. Qed.

(** C10.  [recvall(0)] returns the empty buffer and leaves the connection
    as it was, the record of the reads made on its socket included: no
    read is made, in whatever state the connection is. *)
Theorem recvall_zero (c : SafeStreamSocket) :
  recvall 0 c = (Return [], c) /\
  recv_calls (_sock (recvall 0 c).2) = recv_calls (_sock c).
Proof. done. Qed.

(** ** Calls that keep a property of the object *)

Lemma preserves_ret {S A} (P : S -> Prop) (a : A) : preserves P (ret a).
Proof. by intros s. Qed.

Lemma preserves_raise {S A} (P : S -> Prop) e : preserves P (@raise S A e).
Proof. by intros s. Qed.

Lemma preserves_gets {S A} (P : S -> Prop) (f : S -> A) : preserves P (gets f).
Proof. by intros s. Qed.

Lemma preserves_lift_outcome {S A} (P : S -> Prop) (o : outcome A) :
  preserves P (@lift_outcome S A o).
Proof. by intros s. Qed.

Lemma preserves_bind {S A B} (P : S -> Prop) (m : M S A) (k : A -> M S B) :
  preserves P m -> (forall a, preserves P (k a)) -> preserves P (bind m k).
Proof.
  intros Hm Hk s Hs. unfold bind. specialize (Hm s Hs).
  destruct (m s) as [[a|e] s1]; simpl in *; [by apply Hk | done].
Qed.

Lemma preserves_inherited {A} (P : PlistSocket -> Prop) (m : M SafeStreamSocket A) :
  (forall p c, P p -> P (set_base c p)) -> preserves P (inherited m).
Proof.
  intros HP p Hp. unfold inherited. destruct (m (base p)) as [r c]. by apply HP.
Qed.

Lemma inherited_recvall_enough size p :
  size <= len (pending (base p)) ->
  exists c',
    inherited (recvall size) p
      = (Return (take (Z.to_nat size) (pending (base p))), set_base c' p) /\
    pending c' = drop (Z.to_nat size) (pending (base p)) /\
    reads_only (base p) c'.
Proof.
  intros Hen. destruct (recvall_enough size (base p) Hen) as (c' & E & Hp & Hro).
  exists c'. unfold inherited. by rewrite E.
Qed.

Lemma inherited_recvall_short size p :
  len (pending (base p)) < size ->
  exists c', inherited (recvall size) p = (Raise broken, set_base c' p).
Proof.
  intros Hsh. destruct (recvall_short size (base p) Hsh) as (c' & E & Hro).
  exists c'. unfold inherited. by rewrite E.
Qed.

(** ** Packets *)

Section PacketProperties.
Context `{Host} `{Env} {payload : Type} `{Plistlib payload}.

Lemma first_header_length o n mt tag :
  length (first_header o n mt tag) = 16%nat.
Proof. unfold first_header. by rewrite !length_app, !u32_bytes_length. Qed.

Lemma send_packet_first p (pl : payload) mt :
  _first p = true ->
  u32_ok (16 + len (dumps pl)) = true -> u32_ok mt = true ->
  u32_ok (_tag p) = true ->
  send_packet pl mt p
  = (Return tt,
     written (first_header sys_byteorder (len (dumps pl)) mt (_tag p)
              ++ dumps pl) p).
Proof.
  intros Hf Hl Hm Ht. unfold send_packet, bind, gets, lift_outcome. rewrite Hf.
  rewrite struct_pack_ok by (repeat constructor; done).
  unfold first_header. simpl. by rewrite app_nil_r, <- !app_assoc.
Qed.

Lemma send_packet_next p (pl : payload) mt :
  _first p = false ->
  u32_ok (len (dumps pl)) = true ->
  send_packet pl mt p
  = (Return tt, written (u32_bytes BigEndian (len (dumps pl)) ++ dumps pl) p).
Proof.
  intros Hf Hl. unfold send_packet, bind, gets, lift_outcome. rewrite Hf.
  rewrite struct_pack_ok by (repeat constructor; done).
  cbn [map concat order_of]. by rewrite app_nil_r.
Qed.

(** A payload too long for the length field is not sent. *)
Lemma send_packet_next_overflow p (pl : payload) mt :
  _first p = false ->
  u32_ok (len (dumps pl)) = false ->
  send_packet pl mt p = (Raise StructError, p).
Proof.
  intros Hf Hl. unfold send_packet, bind, gets, lift_outcome. rewrite Hf.
  by rewrite struct_pack_overflow.
Qed.

Lemma wire_written data p : wire (written data p) = wire p ++ data.
Proof. done. Qed.

Lemma sent_by_written {A} (m : M PlistSocket A) r data p :
  m p = (r, written data p) -> sent_by m p = data.
Proof.
  intros E. unfold sent_by. rewrite E. cbn [snd].
  by rewrite wire_written, drop_app_length.
Qed.

Lemma recv_packet_first q hs l v r t body rest :
  _first q = true \/ hs = Some 16 ->
  u32_ok l = true -> u32_ok v = true -> u32_ok r = true -> u32_ok t = true ->
  pending (base q)
  = (u32_bytes sys_byteorder l ++ u32_bytes sys_byteorder v ++
     u32_bytes sys_byteorder r ++ u32_bytes sys_byteorder t) ++ body ++ rest ->
  len body = l - 16 ->
  exists q',
    recv_packet hs q
    = (match loads body with
       | Some pl => Return pl
       | None => Raise InvalidFileException
       end, q') /\
    _first q' = false /\ _tag q' = _tag q /\
    pending (base q') = rest /\ reads_only (base q) (base q').
Proof.
  intros Hf Hl Hv Hr Ht Hpend Hlen.
  set (hdr := u32_bytes sys_byteorder l ++ u32_bytes sys_byteorder v ++
              u32_bytes sys_byteorder r ++ u32_bytes sys_byteorder t) in *.
  assert (Hhl : length hdr = 16%nat).
  { unfold hdr. by rewrite !length_app, !u32_bytes_length. }
  destruct (inherited_recvall_enough 16 q) as (c1 & E1 & Hp1 & Hro1).
  { rewrite Hpend, len_app. pose proof (len_nonneg (body ++ rest)).
    unfold len in *. lia. }
  rewrite Hpend in E1, Hp1.
  change (Z.to_nat 16) with 16%nat in *. rewrite <- Hhl in E1 at 1.
  rewrite <- Hhl in Hp1. rewrite take_app_length in E1.
  rewrite drop_app_length in Hp1.
  destruct (inherited_recvall_enough (l - 16) (set_first false (set_base c1 q)))
    as (c2 & E2 & Hp2 & Hro2).
  { simpl. rewrite Hp1, len_app. pose proof (len_nonneg rest). lia. }
  simpl in E2, Hp2, Hro2. rewrite Hp1 in E2, Hp2.
  assert (Hn : Z.to_nat (l - 16) = length body) by (unfold len in *; lia).
  rewrite Hn, take_app_length in E2. rewrite Hn, drop_app_length in Hp2.
  exists (set_base c2 (set_first false (set_base c1 q))).
  split; [|by eauto using reads_only_trans].
  unfold recv_packet, bind, gets.
  replace (_first q || bool_decide (hs = Some 16)) with true.
  2:{ destruct Hf as [-> | ->]; [done|].
      rewrite bool_decide_eq_true_2 by done. by rewrite orb_true_r. }
  rewrite E1. unfold lift_outcome.
  assert (Hun : struct_unpack NativePrefix 4 hdr = Return [l; v; r; t]).
  { apply (struct_unpack_pack NativePrefix [l; v; r; t]).
    rewrite struct_pack_ok by (repeat constructor; done).
    unfold hdr. simpl. by rewrite app_nil_r. }
  rewrite Hun. unfold modify, ret. rewrite E2.
  by destruct (loads body).
Qed.

Lemma recv_packet_next q hs n body rest :
  _first q = false -> hs <> Some 16 ->
  u32_ok n = true ->
  pending (base q) = u32_bytes BigEndian n ++ body ++ rest ->
  len body = n ->
  exists q',
    recv_packet hs q
    = (match loads body with
       | Some pl => Return pl
       | None => Raise InvalidFileException
       end, q') /\
    _first q' = false /\ _tag q' = _tag q /\
    pending (base q') = rest /\ reads_only (base q) (base q').
Proof.
  intros Hf Hhs Hok Hpend Hlen.
  destruct (inherited_recvall_enough 4 q) as (c1 & E1 & Hp1 & Hro1).
  { rewrite Hpend, len_app. pose proof (len_nonneg (body ++ rest)).
    unfold len in *. rewrite u32_bytes_length. lia. }
  rewrite Hpend in E1, Hp1.
  change (Z.to_nat 4) with 4%nat in *.
  rewrite <- (u32_bytes_length BigEndian n) in E1 at 1.
  rewrite <- (u32_bytes_length BigEndian n) in Hp1.
  rewrite take_app_length in E1. rewrite drop_app_length in Hp1.
  destruct (inherited_recvall_enough n (set_base c1 q))
    as (c2 & E2 & Hp2 & Hro2).
  { simpl. rewrite Hp1, len_app. pose proof (len_nonneg rest). lia. }
  simpl in E2, Hp2, Hro2. rewrite Hp1 in E2, Hp2.
  assert (Hn : Z.to_nat n = length body) by (unfold len in *; lia).
  rewrite Hn, take_app_length in E2. rewrite Hn, drop_app_length in Hp2.
  exists (set_base c2 (set_base c1 q)).
  split; [|by eauto using reads_only_trans].
  unfold recv_packet, bind, gets. rewrite Hf.
  rewrite bool_decide_eq_false_2 by done. cbn [orb].
  rewrite E1. unfold lift_outcome.
  assert (Hun : struct_unpack NetworkPrefix 1 (u32_bytes BigEndian n) = Return [n]).
  { apply (struct_unpack_pack NetworkPrefix [n]).
    rewrite struct_pack_ok by (repeat constructor; done).
    cbn [map concat order_of]. by rewrite app_nil_r. }
  rewrite Hun. unfold ret. rewrite E2.
  by destruct (loads body).
Qed.
Lemma struct_unpack_total p n : forall data,
  length data = (4 * n)%nat ->
  exists vs, struct_unpack p n data = Return vs /\ length vs = n.
Proof.
  induction n as [|n IH]; intros data Hlen.
  - destruct data; [by exists [] | done].
  - destruct data as [|b0 [|b1 [|b2 [|b3 data]]]]; simpl in Hlen; try lia.
    destruct (IH data) as (vs & E & Hvs); [lia|].
    simpl. rewrite E. eexists. split; [done|]. simpl. by rewrite Hvs.
Qed.

(** [send_packet] reads the flag and never writes it. *)
Lemma send_packet_keeps_first b (pl : payload) mt :
  preserves (λ p, _first p = b) (send_packet pl mt).
Proof.
  unfold send_packet.
  repeat (apply preserves_bind; [|intros]);
    auto using preserves_gets, preserves_lift_outcome.
  by apply preserves_inherited.
Qed.

(** Once the flag is false, [recv_packet] leaves it false. *)
Lemma recv_packet_keeps_not_first hs :
  preserves (λ p, _first p = false) (recv_packet (payload:=payload) hs).
Proof.
  unfold recv_packet.
  apply preserves_bind; [apply preserves_gets|]. intros first.
  apply preserves_bind.
  - destruct (first || bool_decide (hs = Some 16)).
    + apply preserves_bind; [by apply preserves_inherited|]. intros hdr.
      apply preserves_bind; [apply preserves_lift_outcome|].
      intros [|l [|v [|r [|t [|? ?]]]]]; try apply preserves_raise.
      apply preserves_bind; [by intros ? ?|]. intros _. apply preserves_ret.
    + apply preserves_bind; [by apply preserves_inherited|]. intros hdr.
      apply preserves_bind; [apply preserves_lift_outcome|].
      intros [|l [|? ?]]; apply preserves_raise || apply preserves_ret.
  - intros l. apply preserves_bind; [by apply preserves_inherited|].
    intros body. destruct (loads body); apply preserves_raise || apply preserves_ret.
Qed.

(** A receive on the sixteen-byte path that gets its header clears the
    flag, whatever comes after the header. *)
Lemma recv_packet_clears_first hs p :
  _first p = true ->
  16 <= len (pending (base p)) ->
  _first (recv_packet (payload:=payload) hs p).2 = false.
Proof.
  intros Hf Hen.
  destruct (inherited_recvall_enough 16 p Hen) as (c1 & E1 & _ & _).
  destruct (struct_unpack_total NativePrefix 4
              (take (Z.to_nat 16) (pending (base p)))) as (vs & Hun & Hvs).
  { rewrite length_take. unfold len in Hen. lia. }
  destruct vs as [|l [|v [|r [|t [|? ?]]]]]; try done.
  unfold recv_packet, bind, gets. rewrite Hf. cbn [orb].
  rewrite E1. unfold lift_outcome. rewrite Hun. unfold modify, ret.
  pose proof (preserves_inherited (λ p, _first p = false) (recvall (l - 16))
                ltac:(done) (set_first false (set_base c1 p)) eq_refl) as Hk.
  destruct (inherited (recvall (l - 16)) (set_first false (set_base c1 p)))
    as [[body|e] p2]; [|done].
  by destruct (loads body).
Qed.

(** A receive that does not get its header leaves the flag as it is. *)
Lemma recv_packet_no_header hs p :
  _first p = true ->
  len (pending (base p)) < 16 ->
  exists p', recv_packet (payload:=payload) hs p = (Raise broken, p') /\
             _first p' = true.
Proof.
  intros Hf Hsh.
  destruct (inherited_recvall_short 16 p Hsh) as (c1 & E1).
  exists (set_base c1 p). unfold recv_packet, bind, gets.
  rewrite Hf. cbn [orb]. by rewrite E1.
Qed.

Lemma after_calls_not_first (cs : list (call (payload:=payload))) : forall p,
  _first p = false -> _first (after_calls p cs) = false.
Proof.
  induction cs as [|c cs IH]; intros p Hf; [done|].
  apply IH. destruct c as [pl mt|hs]; simpl.
  - by apply send_packet_keeps_first.
  - by apply recv_packet_keeps_not_first.
Qed.

Lemma after_sends_first (cs : list (call (payload:=payload))) : forall p,
  Forall (λ c, exists pl mt, c = CallSend pl mt) cs ->
  _first (after_calls p cs) = _first p.
Proof.
  induction cs as [|c cs IH]; intros p Hcs; [done|].
  inversion Hcs as [|? ? (pl & mt & ->) Hcs']; subst.
  unfold after_calls in *. simpl. rewrite IH by done.
  by apply send_packet_keeps_first.
Qed.

(** A channel that has been constructed starts on its first message. *)
Lemma PlistSocket__init__first addr tag w p w' :
  PlistSocket__init__ addr tag w = (Return p, w') -> _first p = true.
Proof.
  unfold PlistSocket__init__, bind. destruct addr as [a|p0].
  - destruct (SafeStreamSocket__init__ a w) as [[c|e] w1]; [|done].
    by intros [= <- _].
  - done.
Qed.
End PacketProperties.

Section ChannelClaims.
Context `{Host} `{Env} {payload : Type} `{Plistlib payload}.

(** C1, as amended.  A payload whose serialised form fits the length
    field of the header (with, on the first message, a message type and
    a tag that fit their fields) and which [plistlib] reads back from
    its serialised form makes the round trip: [send_packet] returns,
    and a receiver on the same framing path to which the bytes written
    arrive, in whatever segments and whatever follows them, gets the
    payload from [recv_packet] and is left with what follows. *)
Theorem packet_round_trip (p q : PlistSocket) (pl : payload) (mt : Z)
    (rest : bytes) :
  _first q = _first p ->
  (if _first p
   then u32_ok (16 + len (dumps pl)) && u32_ok mt && u32_ok (_tag p)
   else u32_ok (len (dumps pl))) = true ->
  loads (dumps pl) = Some pl ->
  pending (base q) = sent_by (send_packet pl mt) p ++ rest ->
  (send_packet pl mt p).1 = Return tt /\
  exists q', recv_packet None q = (Return pl, q') /\
             pending (base q') = rest.
Proof.
  intros Hq Hfit Hloads Hpend. destruct (_first p) eqn:Hf.
  - apply andb_true_iff in Hfit as [[Hl Hm]%andb_true_iff Ht].
    pose proof (send_packet_first p pl mt Hf Hl Hm Ht) as E.
    rewrite (sent_by_written _ _ _ _ E), <- app_assoc in Hpend.
    rewrite E. split; [done|].
    unfold first_header in Hpend.
    destruct (recv_packet_first q None _ 1 _ _ _ _ (or_introl Hq) Hl eq_refl
                Hm Ht Hpend) as (q' & E' & _ & _ & Hrest & _); [lia|].
    exists q'. by rewrite E', Hloads.
  - pose proof (send_packet_next p pl mt Hf Hfit) as E.
    rewrite (sent_by_written _ _ _ _ E), <- app_assoc in Hpend.
    rewrite E. split; [done|].
    destruct (recv_packet_next q None _ _ _ Hq ltac:(done) Hfit Hpend eq_refl)
      as (q' & E' & _ & _ & Hrest & _).
    exists q'. by rewrite E', Hloads.
Qed.

(** C2, as amended.  A channel that has been constructed has the flag
    set.  [send_packet] never changes the flag: a send made while it is
    set, so every send before the first receive, writes a header of
    sixteen bytes, and a send made while it is clear writes a header of
    four bytes.  [recv_packet] clears the flag as soon as it has read a
    sixteen-byte header, and once clear the flag stays clear under every
    sequence of sends and receives; a receive that fails before it has
    its header leaves the flag set. *)
Theorem first_flag_cleared_by_receive (p : PlistSocket) :
  (forall addr tag w p0 w',
     PlistSocket__init__ addr tag w = (Return p0, w') -> _first p0 = true) /\
  (forall (pl : payload) mt, _first (send_packet pl mt p).2 = _first p) /\
  (forall (pl : payload) mt,
     _first p = true -> u32_ok (16 + len (dumps pl)) = true ->
     u32_ok mt = true -> u32_ok (_tag p) = true ->
     exists header, length header = 16%nat /\
       send_packet pl mt p = (Return tt, written (header ++ dumps pl) p)) /\
  (forall (pl : payload) mt,
     _first p = false -> u32_ok (len (dumps pl)) = true ->
     exists header, length header = 4%nat /\
       send_packet pl mt p = (Return tt, written (header ++ dumps pl) p)) /\
  (forall hs, _first p = true -> 16 <= len (pending (base p)) ->
     _first (recv_packet (payload:=payload) hs p).2 = false) /\
  (forall hs, _first p = true -> len (pending (base p)) < 16 ->
     (recv_packet (payload:=payload) hs p).1 = Raise broken /\
     _first (recv_packet (payload:=payload) hs p).2 = true) /\
  (forall cs : list (call (payload:=payload)),
     _first p = false -> _first (after_calls p cs) = false) /\
  (forall cs : list (call (payload:=payload)),
     Forall (λ c, exists pl mt, c = CallSend pl mt) cs ->
     _first (after_calls p cs) = _first p).
Proof.
  split; [intros; by eapply PlistSocket__init__first|].
  split; [intros; by apply send_packet_keeps_first|].
  split; [|split].
  - intros pl mt Hf Hl Hm Ht. eexists. split; [|by apply send_packet_first].
    apply first_header_length.
  - intros pl mt Hf Hl. eexists. split; [|by apply send_packet_next].
    by rewrite u32_bytes_length.
  - split; [intros; by apply recv_packet_clears_first|].
    split.
    { intros hs Hf Hsh.
      by destruct (recv_packet_no_header hs p Hf Hsh) as (p' & -> & ?). }
    split; [intros; by apply after_calls_not_first|].
    intros. by apply after_sends_first.
Qed.

(** C4, as amended.  The header of the first message has sixteen bytes:
    total length, [1], message type and tag, all four in the byte order
    of the host, which is what the format ["IIII"] means; the header of
    a later message is the payload length in four big-endian bytes.
    [recv_packet] reads the two forms with the same two byte orders.  On
    a little-endian host every field of the first header is the
    big-endian one reversed, and the two orders differ. *)
Theorem header_byte_orders (p q : PlistSocket) (pl : payload) (mt : Z) :
  (_first p = true -> u32_ok (16 + len (dumps pl)) = true ->
   u32_ok mt = true -> u32_ok (_tag p) = true ->
   send_packet pl mt p
   = (Return tt,
      written (first_header sys_byteorder (len (dumps pl)) mt (_tag p)
               ++ dumps pl) p)) /\
  (_first p = false -> u32_ok (len (dumps pl)) = true ->
   send_packet pl mt p
   = (Return tt,
      written (u32_bytes BigEndian (len (dumps pl)) ++ dumps pl) p)) /\
  (forall hs l v r t body rest,
     _first q = true \/ hs = Some 16 ->
     u32_ok l = true -> u32_ok v = true -> u32_ok r = true ->
     u32_ok t = true ->
     pending (base q)
     = (u32_bytes sys_byteorder l ++ u32_bytes sys_byteorder v ++
        u32_bytes sys_byteorder r ++ u32_bytes sys_byteorder t)
       ++ body ++ rest ->
     len body = l - 16 ->
     (recv_packet hs q).1
     = match loads body with
       | Some pl' => Return pl'
       | None => Raise InvalidFileException
       end /\
     pending (base (recv_packet (payload:=payload) hs q).2) = rest) /\
  (forall hs n body rest,
     _first q = false -> hs <> Some 16 -> u32_ok n = true ->
     pending (base q) = u32_bytes BigEndian n ++ body ++ rest ->
     len body = n ->
     (recv_packet hs q).1
     = match loads body with
       | Some pl' => Return pl'
       | None => Raise InvalidFileException
       end /\
     pending (base (recv_packet (payload:=payload) hs q).2) = rest) /\
  (sys_byteorder = LittleEndian ->
   (forall v, u32_bytes sys_byteorder v = reverse (u32_bytes BigEndian v)) /\
   u32_bytes sys_byteorder 1 <> u32_bytes BigEndian 1).
Proof.
  split; [by apply send_packet_first|].
  split; [by apply send_packet_next|].
  split; [|split].
  - intros hs l v r t body rest Hf Hl Hv Hr Ht Hpend Hlen.
    destruct (recv_packet_first q hs l v r t body rest Hf Hl Hv Hr Ht Hpend
                Hlen) as (q' & -> & _ & _ & Hrest & _).
    done.
  - intros hs n body rest Hf Hhs Hn Hpend Hlen.
    destruct (recv_packet_next q hs n body rest Hf Hhs Hn Hpend Hlen)
      as (q' & -> & _ & _ & Hrest & _).
    done.
  - intros ->. split; [|done].
    intros v. simpl. by rewrite reverse_involutive.
Qed.

End ChannelClaims.

Lemma raw_dumps (pl : bytes) : @dumps bytes raw_plistlib pl = pl.
Proof. done. Qed.

Lemma packet_round_trip_witness :
  (@send_packet little_host bytes raw_plistlib [x41; x42; x43] 8
     (demo_channel true [])).1 = Return tt /\
  exists q',
    @recv_packet little_host bytes raw_plistlib None
      (demo_channel true
         [[x13; x00; x00]; [x00; x01; x00; x00; x00; x08; x00; x00; x00; x00];
          [x00; x00; x00; x41]; [x42; x43; xff]])
    = (Return [x41; x42; x43], q') /\
    pending (base q') = [xff].
Proof.
  apply (@packet_round_trip little_host bytes raw_plistlib
           (demo_channel true []) _ [x41; x42; x43] 8 [xff]);
    reflexivity.
Defined.

(** C1 as stated fails on a payload of four gigabytes: its length does
    not fit the four bytes of the header, [struct.pack] raises and nothing
    is written. *)
Lemma oversize_payload_not_sent :
  @send_packet little_host bytes raw_plistlib
    (replicate (N.to_nat 4294967296) x00) 8 (demo_channel false [])
  = (Raise StructError, demo_channel false []).
Proof.
  apply (@send_packet_next_overflow little_host); [done|].
  rewrite raw_dumps. unfold len. rewrite length_replicate, N_nat_Z. done.
Qed.

Lemma first_flag_cleared_by_receive_witness :
  _first (@send_packet little_host bytes raw_plistlib [x41] 8
            (demo_channel true [])).2 = true /\
  _first (@recv_packet little_host bytes raw_plistlib None
            (demo_channel true
               [[x11; x00; x00; x00; x01; x00; x00; x00;
                 x08; x00; x00; x00; x00; x00; x00; x00; x41]])).2 = false.
Proof.
  split.
  - apply (@first_flag_cleared_by_receive little_host demo_env bytes
             raw_plistlib (demo_channel true [])).
  - apply (@first_flag_cleared_by_receive little_host demo_env bytes
             raw_plistlib); [reflexivity | unfold len; simpl; lia].
Defined.

(** The exchange the flag is made for: the first request goes out under a
    sixteen-byte header, the reply comes in under one, here
    [[28, 1, 8, 1]] and twelve bytes, and the request after it goes out
    under a four-byte header. *)
Example request_reply_request :
  let p1 := (@send_packet little_host bytes raw_plistlib [x41] 8
               (demo_channel true
                  [[x1c; x00; x00; x00; x01; x00; x00; x00;
                    x08; x00; x00; x00; x01; x00; x00; x00];
                   [x52; x65; x73; x70; x6f; x6e; x73; x65; x3a; x20; x4f; x4b]])).2 in
  let r := @recv_packet little_host bytes raw_plistlib None p1 in
  r.1 = Return [x52; x65; x73; x70; x6f; x6e; x73; x65; x3a; x20; x4f; x4b] /\
  sent_by (@send_packet little_host bytes raw_plistlib [x42] 8) r.2
  = [x00; x00; x00; x01; x42].
Proof. by split. Qed.

(** C2 as stated fails on a channel that sends twice before it receives:
    the second send writes a sixteen-byte header again. *)
Lemma second_send_before_receive :
  (@PlistSocket__init__ demo_env (Addr (AddrStr "/var/run/usbmuxd")) 0
     demo_world).1 = Return (demo_channel true []) /\
  sent_by (@send_packet little_host bytes raw_plistlib [x42] 8)
    (@send_packet little_host bytes raw_plistlib [x41] 8
       (demo_channel true [])).2
  = [x11; x00; x00; x00; x01; x00; x00; x00;
     x08; x00; x00; x00; x00; x00; x00; x00; x42] /\
  sent_by (@send_packet little_host bytes raw_plistlib [x42] 8)
    (@send_packet little_host bytes raw_plistlib [x41] 8
       (demo_channel true [])).2
  <> [x00; x00; x00; x01; x42].
Proof. by repeat split. Qed.

Lemma header_byte_orders_witness :
  @send_packet little_host bytes raw_plistlib [x41] 8 (demo_channel false [])
  = (Return tt, written [x00; x00; x00; x01; x41] (demo_channel false [])) /\
  @send_packet little_host bytes raw_plistlib [x41] 8 (demo_channel true [])
  = (Return tt,
     written [x11; x00; x00; x00; x01; x00; x00; x00;
              x08; x00; x00; x00; x00; x00; x00; x00; x41]
       (demo_channel true [])).
Proof.
  split.
  - apply (@header_byte_orders little_host bytes raw_plistlib
             (demo_channel false []) (demo_channel false []) [x41] 8);
      reflexivity.
  - apply (@header_byte_orders little_host bytes raw_plistlib
             (demo_channel true []) (demo_channel false []) [x41] 8);
      reflexivity.
Defined.

(** C4 as stated fails on a big-endian host: there the header of the
    first message is in big-endian order, the order of the later
    headers. *)
Lemma first_header_on_big_endian_host :
  sent_by (@send_packet big_host bytes raw_plistlib [x41] 8)
    (demo_channel true [])
  = [x00; x00; x00; x11; x00; x00; x00; x01;
     x00; x00; x00; x08; x00; x00; x00; x00; x41] /\
  @struct_pack big_host NativePrefix [17; 1; 8; 0]
  = @struct_pack big_host NetworkPrefix [17; 1; 8; 0].
Proof. by split. Qed.


(** ** The id allocator *)

Lemma get_uniq_ids_spec threads : forall w,
  exists res w',
    get_uniq_ids threads w = (Return res, w') /\
    res.*1 = threads /\
    Forall (λ n, _n w < n <= _n w') res.*2 /\
    StronglySorted Z.lt res.*2 /\
    _n w <= _n w'.
Proof.
  induction threads as [|t threads IH]; intros w.
  - exists [], w. repeat split; try constructor. lia.
  - destruct (IH (get_uniq_id w).2) as (res & w' & E & Hthreads & Hall & Hsort & Hle).
    simpl in Hall, Hle.
    exists ((t, _n w + 1) :: res), w'. split; [|split; [|split; [|split]]].
    + simpl. unfold bind at 1. unfold get_uniq_id at 1.
      unfold bind at 1. simpl in E. by rewrite E.
    + by rewrite fmap_cons, Hthreads.
    + rewrite fmap_cons. constructor; [simpl; lia|].
      eapply Forall_impl; [exact Hall|]. simpl. lia.
    + rewrite fmap_cons. constructor; [done|].
      eapply Forall_impl; [exact Hall|]. simpl. lia.
    + lia.
Qed.

Lemma StronglySorted_lt_NoDup (l : list Z) : StronglySorted Z.lt l -> NoDup l.
Proof.
  induction 1 as [|n l _ IH Hall]; constructor; [|done].
  intros Hin. rewrite Forall_forall in Hall. specialize (Hall n Hin). lia.
Qed.

(** C8.  However many calls are made and by whichever threads, in the
    order in which the lock lets them in every call returns a value above
    the values of all calls before it, those made before the sequence
    began (none of which is above the counter) included; so no value is
    returned twice. *)
Theorem get_uniq_id_increasing (threads : list nat) (w : world) :
  exists res w',
    get_uniq_ids threads w = (Return res, w') /\
    res.*1 = threads /\
    Forall (λ n, _n w < n) res.*2 /\
    StronglySorted Z.lt res.*2 /\
    NoDup res.*2.
Proof.
  destruct (get_uniq_ids_spec threads w) as (res & w' & E & Ht & Hall & Hs & _).
  exists res, w'. repeat split; try done.
  - eapply Forall_impl; [exact Hall|]. simpl. lia.
  - by apply StronglySorted_lt_NoDup.
Qed.

(** ** Addresses *)

Lemma split_colon_spec a :
  match split_colon a with
  | Some (host, port) =>
      a = host +:+ ":" +:+ port /\ contains_colon host = false /\
      contains_colon a = true
  | None => contains_colon a = false
  end.
Proof.
  induction a as [|c a IH]; simpl; [done|].
  destruct (Ascii.eqb c ":") eqn:Hc.
  - apply Ascii.eqb_eq in Hc as ->. done.
  - destruct (split_colon a) as [[host port]|]; [|done].
    destruct IH as (-> & Hhost & Ha). simpl. by rewrite Hc, Hhost, Ha.
Qed.

Section Connect.
Context `{Env}.

(** C3, as amended.  A string with a colon is cut at its first colon
    into host and port, the port is read by [int], and the connection
    is made over TCP to [(host, port)], or [ValueError] is raised when
    the port is no integer; a string without a colon that
    names an existing path is connected to as a local socket; any other
    string is rejected with [MuxError], and no socket is created for
    it. *)
Theorem address_forms (a : string) (w : world) :
  (contains_colon a = true <->
   exists host port, split_colon a = Some (host, port) /\
                     a = host +:+ ":" +:+ port /\
                     contains_colon host = false) /\
  (forall host port n,
     split_colon a = Some (host, port) -> py_int port = Some n ->
     init_family (AddrStr a) = Return (AF_INET, HostPort host n) /\
     events (SafeStreamSocket__init__ (AddrStr a) w).2
     = events w ++ [EvConnect (next_sock_id w) AF_INET (HostPort host n)]) /\
  (forall host port,
     split_colon a = Some (host, port) -> py_int port = None ->
     SafeStreamSocket__init__ (AddrStr a) w
     = (Raise ValueError, (get_uniq_id w).2)) /\
  (contains_colon a = false -> path_exists a = true ->
   init_family (AddrStr a) = Return (AF_UNIX, Path a) /\
   events (SafeStreamSocket__init__ (AddrStr a) w).2
   = events w ++ [EvConnect (next_sock_id w) AF_UNIX (Path a)]) /\
  (contains_colon a = false -> path_exists a = false ->
   SafeStreamSocket__init__ (AddrStr a) w
   = (Raise (MuxError ("socket unix:" +:+ a +:+ " unable to connect")),
      (get_uniq_id w).2) /\
   events (SafeStreamSocket__init__ (AddrStr a) w).2 = events w).
Proof.
  pose proof (split_colon_spec a) as Hsplit.
  split; [|split; [|split; [|split]]].
  - destruct (split_colon a) as [[host port]|].
    + destruct Hsplit as (Ha & Hhost & Hc). split; [|done].
      intros _. by exists host, port.
    + rewrite Hsplit. split; [done|]. by intros (? & ? & ? & _).
  - intros host port n Hs Hn.
    unfold SafeStreamSocket__init__, bind, lift_outcome, init_family.
    rewrite Hs, Hn. cbn [get_uniq_id fst snd]. split; [done|].
    unfold socket_connect. cbn [next_sock_id events _n].
    by destruct (connect_peer AF_INET (HostPort host n)).
  - intros host port Hs Hn.
    unfold SafeStreamSocket__init__, bind, lift_outcome, init_family.
    by rewrite Hs, Hn.
  - intros Hc He.
    unfold SafeStreamSocket__init__, bind, lift_outcome, init_family.
    destruct (split_colon a) as [[host port]|]; [destruct Hsplit as (_ & _ & ?); congruence|].
    rewrite He. cbn [get_uniq_id fst snd]. split; [done|].
    unfold socket_connect. cbn [next_sock_id events _n].
    by destruct (connect_peer AF_UNIX (Path a)).
  - intros Hc He.
    unfold SafeStreamSocket__init__, bind, lift_outcome, init_family.
    destruct (split_colon a) as [[host port]|]; [destruct Hsplit as (_ & _ & ?); congruence|].
    by rewrite He.
Qed.

(** The constructor leaves a live connection that owns its one socket. *)
Lemma SafeStreamSocket__init__owned addr w c w' :
  SafeStreamSocket__init__ addr w = (Return c, w') ->
  match addr with
  | AddrSocket s => (sock_id s < next_sock_id w)%nat
  | _ => True
  end ->
  owned_ok w' c /\ finalizer_alive c = true /\
  _sock_gclist c = [sock_id (_sock c)].
Proof.
  unfold SafeStreamSocket__init__, bind, lift_outcome.
  cbn [get_uniq_id]. intros E Hs.
  assert (Hconn : forall f sa s w1,
    socket_connect f sa (get_uniq_id w).2 = (Return s, w1) ->
    (sock_id s < next_sock_id w1)%nat).
  { intros f sa s w1. unfold socket_connect.
    destruct sa; [| |done]; destruct (connect_peer f _);
      intros [= <- <-]; simpl; lia. }
  assert (Hgoal : forall s w1 (c0 : SafeStreamSocket),
    (sock_id s < next_sock_id w1)%nat ->
    c0 = {| _id := _n w + 1; _name := None; _sock := s;
            _sock_gclist := [sock_id s]; finalizer_alive := true |} ->
    owned_ok w1 c0 /\ finalizer_alive c0 = true /\
    _sock_gclist c0 = [sock_id (_sock c0)]).
  { intros s w1 c0 Hlt ->. repeat split; simpl.
    - apply NoDup_singleton.
    - by constructor. }
  destruct addr as [s|a|host port|]; cbv beta iota in E.
  - injection E as <- <-. by apply (Hgoal s).
  - destruct (init_family (AddrStr a)) as [[f sa]|e]; [|done].
    destruct (socket_connect _ _ _) as [[s|e] w1] eqn:Ec; [|done].
    injection E as <- <-. eapply Hgoal; [|done]. by eapply Hconn.
  - change (init_family (AddrTuple host port))
      with (Return (AF_INET, HostPort host port)) in E.
    cbv beta iota in E. cbn [fst snd] in E.
    destruct (socket_connect _ _ _) as [[s|e] w1] eqn:Ec; [|done].
    injection E as <- <-. eapply Hgoal; [|done]. by eapply Hconn.
  - done.
Qed.
End Connect.

Lemma address_forms_witness :
  @init_family demo_env (AddrStr "localhost:27015")
  = Return (AF_INET, HostPort "localhost" 27015) /\
  @init_family demo_env (AddrStr "/var/run/usbmuxd")
  = Return (AF_UNIX, Path "/var/run/usbmuxd").
Proof.
  split.
  - destruct (@address_forms demo_env "localhost:27015" demo_world)
      as (_ & Htcp & _).
    apply (Htcp "localhost" "27015" 27015); reflexivity.
  - destruct (@address_forms demo_env "/var/run/usbmuxd" demo_world)
      as (_ & _ & _ & Hunix & _).
    apply Hunix; reflexivity.
Defined.

(** C3 as stated fails on a bare host name: it is not connected to over
    TCP but rejected. *)
Lemma bare_host_name_rejected :
  @SafeStreamSocket__init__ demo_env (AddrStr "localhost") demo_world
  = (Raise (MuxError "socket unix:localhost unable to connect"),
     {| _n := 1; next_sock_id := 0; events := [] |}).
Proof. reflexivity. Qed.

(** ** Upgrade and release *)

Lemma close_events_count socks id :
  NoDup socks ->
  length (filter (λ e, e = EvClose id) (map EvClose socks))
  = if bool_decide (id ∈ socks) then 1%nat else 0%nat.
Proof.
  induction 1 as [|x socks Hx Hnd IH]; [done|].
  cbn [map]. rewrite filter_cons.
  destruct (decide (EvClose x = EvClose id)) as [[= ->]|Hne].
  - rewrite bool_decide_eq_true_2 by set_solver.
    rewrite bool_decide_eq_false_2 in IH by done.
    cbn [length]. by rewrite IH.
  - rewrite IH. assert (id <> x) by congruence.
    destruct (decide (id ∈ socks)) as [Hin|Hnin].
    + rewrite (bool_decide_eq_true_2 (id ∈ socks)) by done.
      rewrite (bool_decide_eq_true_2 (id ∈ x :: socks)); [done|].
      apply elem_of_cons. by right.
    + rewrite (bool_decide_eq_false_2 (id ∈ socks)) by done.
      rewrite (bool_decide_eq_false_2 (id ∈ x :: socks)); [done|].
      by intros [?|?]%elem_of_cons.
Qed.

Lemma close_calls_cleanup w socks id :
  NoDup socks ->
  close_calls (_cleanup socks w) id
  = (close_calls w id + (if bool_decide (id ∈ socks) then 1 else 0))%nat.
Proof.
  intros Hnd. unfold close_calls, _cleanup. cbn [events].
  by rewrite filter_app, length_app, close_events_count.
Qed.

Lemma close_times_dead k w c :
  finalizer_alive c = false ->
  close_times k (w, c) = (Return tt, (w, c)).
Proof.
  intros Hd. induction k as [|k IH]; [done|].
  simpl. unfold bind, close. by rewrite Hd.
Qed.

Section Upgrade.
Context `{Env}.

(** What an upgrade that returns has done. *)
Lemma switch_to_ssl_returns pemfile w c w1 c1 :
  owned_ok w c ->
  switch_to_ssl pemfile (w, c) = (Return tt, (w1, c1)) ->
  _sock_gclist c1 = _sock_gclist c ++ [next_sock_id w] /\
  (next_sock_id w ∉ _sock_gclist c) /\
  sock_id (_sock c1) = S (next_sock_id w) /\
  is_ssl (_sock c1) = true /\ is_ssl (_sock c) = false /\
  finalizer_alive c1 = finalizer_alive c /\
  events w1 = events w ++ [EvDup (sock_id (_sock c)) (next_sock_id w);
                           EvDetach (sock_id (_sock c));
                           EvHandshake (S (next_sock_id w))] /\
  next_sock_id w1 = S (S (next_sock_id w)) /\
  owned_ok w1 c1.
Proof.
  intros [Hnd Hlt]. unfold switch_to_ssl.
  destruct (negb (path_isfile pemfile)); [done|].
  destruct (is_ssl (_sock c)) eqn:Hssl; [done|].
  destruct (sock_closed w (sock_id (_sock c))); [done|].
  destruct (negb (load_cert_chain_ok pemfile)); [done|].
  destruct (negb (handshake_ok (sock_id (_sock c)))); [done|].
  intros [= <- <-]. cbn.
  assert (Hfresh : next_sock_id w ∉ _sock_gclist c).
  { intros Hin. rewrite Forall_forall in Hlt. specialize (Hlt _ Hin). lia. }
  repeat (split; [done|]). split; [by rewrite <- app_assoc|].
  split; [done|]. split; cbn.
  - apply NoDup_app. split; [done|]. split; [|apply NoDup_singleton].
    intros x Hx Hx'%list_elem_of_singleton. by subst x.
  - apply Forall_app. split.
    + eapply Forall_impl; [exact Hlt|]. simpl. lia.
    + constructor; [lia | constructor].
Qed.

(** [close] and the sockets of the list.  For a live connection whose
    list of sockets has no socket twice: an upgrade that succeeds
    appends the duplicate it has just made to the list, and the list
    stays without repetition; [close], called once or more, returns
    each time, calls [close()] on every socket of the list exactly once
    in all, on no other socket, and makes [closed] true; a further
    [close] changes nothing. *)
Lemma close_listed_sockets_once (w : world) (c : SafeStreamSocket) (k : nat) :
  owned_ok w c ->
  finalizer_alive c = true ->
  (forall pemfile w1 c1,
     switch_to_ssl pemfile (w, c) = (Return tt, (w1, c1)) ->
     exists dup_id,
       _sock_gclist c1 = _sock_gclist c ++ [dup_id] /\
       (dup_id ∉ _sock_gclist c) /\
       (EvDup (sock_id (_sock c)) dup_id ∈ events w1) /\
       owned_ok w1 c1 /\ finalizer_alive c1 = true) /\
  closed c = false /\
  exists w' c',
    close_times (S k) (w, c) = (Return tt, (w', c')) /\
    closed c' = true /\
    _sock c' = _sock c /\
    _sock_gclist c' = _sock_gclist c /\
    events w' = events w ++ map EvClose (_sock_gclist c) /\
    (forall id,
       close_calls w' id
       = (close_calls w id +
          (if bool_decide (id ∈ _sock_gclist c) then 1 else 0))%nat) /\
    close (w', c') = (Return tt, (w', c')).
Proof.
  intros Hok Ha. split; [|split].
  - intros pem w1 c1 E.
    destruct (switch_to_ssl_returns pem w c w1 c1 Hok E)
      as (Hl & Hf & _ & _ & _ & Hal & Hev & _ & Hok1).
    exists (next_sock_id w). rewrite Hev, Hal.
    split; [done|]. split; [done|]. split; [set_solver|]. by split.
  - unfold closed. by rewrite Ha.
  - destruct Hok as [Hnd Hlt].
    exists (_cleanup (_sock_gclist c) w), (set_finalizer_alive false c).
    split; [|split; [done|split; [done|split; [done|split; [done|split]]]]].
    + cbn [close_times]. unfold bind. unfold close at 1. rewrite Ha.
      by apply close_times_dead.
    + intros id. by apply close_calls_cleanup.
    + done.
Qed.

(** After an upgrade [self._sock] is the SSL socket that
    [wrap_socket] has made; the list still holds the socket it was made
    from, and the duplicate, and not the SSL socket. *)
Lemma switch_to_ssl_wrapper_not_listed pemfile w c w1 c1 :
  owned_ok w c ->
  switch_to_ssl pemfile (w, c) = (Return tt, (w1, c1)) ->
  is_ssl (_sock c1) = true /\ sock_id (_sock c1) ∉ _sock_gclist c1.
Proof.
  intros Hok E.
  destruct (switch_to_ssl_returns pemfile w c w1 c1 Hok E)
    as (Hl & _ & Hid & Hssl & _).
  split; [done|]. rewrite Hl, Hid. destruct Hok as [_ Hlt].
  intros [Hin|Hin%list_elem_of_singleton]%elem_of_app; [|lia].
  rewrite Forall_forall in Hlt. specialize (Hlt _ Hin). lia.
Qed.

(** C6.  The claim fails on a connection that has been upgraded.  An
    upgrade that returns has detached the socket the connection had and
    made [self._sock] the SSL socket, which holds the descriptor and is
    not in the list of sockets; it has added the duplicate to the list.
    [close], called once or more, returns, makes [closed] true, and
    calls [close()] once on each socket of the list, which are the
    detached socket and the duplicate, and never on [self._sock]: the
    primary handle is left open. *)
Theorem close_after_upgrade_misses_primary (pemfile : string)
    (w w1 : world) (c c1 : SafeStreamSocket) (k : nat) :
  owned_ok w c ->
  finalizer_alive c = true ->
  switch_to_ssl pemfile (w, c) = (Return tt, (w1, c1)) ->
  is_ssl (_sock c1) = true /\
  (sock_id (_sock c1) ∉ _sock_gclist c1) /\
  (EvDetach (sock_id (_sock c)) ∈ events w1) /\
  (exists dup_id, _sock_gclist c1 = _sock_gclist c ++ [dup_id]) /\
  exists w2 c2,
    close_times (S k) (w1, c1) = (Return tt, (w2, c2)) /\
    closed c2 = true /\
    _sock c2 = _sock c1 /\
    events w2 = events w1 ++ map EvClose (_sock_gclist c1) /\
    (EvClose (sock_id (_sock c2)) ∉ map EvClose (_sock_gclist c1)) /\
    close_calls w2 (sock_id (_sock c2)) = close_calls w1 (sock_id (_sock c1)).
Proof.
  intros Hok Ha E.
  destruct (switch_to_ssl_wrapper_not_listed pemfile w c w1 c1 Hok E)
    as [Hssl Hnot].
  destruct (switch_to_ssl_returns pemfile w c w1 c1 Hok E)
    as (Hl & _ & _ & _ & _ & Hal & Hev & _ & Hok1).
  split; [done|]. split; [done|]. split; [rewrite Hev; set_solver|].
  split; [by eexists|].
  destruct (close_listed_sockets_once w1 c1 k Hok1 ltac:(congruence))
    as (_ & _ & w2 & c2 & E2 & Hc & Hs & _ & He & Hcalls & _).
  exists w2, c2. rewrite Hs. repeat (split; [done|]). split.
  - intros (id & [= Hid] & Hin)%list_elem_of_fmap. by rewrite Hid in Hnot.
  - rewrite Hcalls. rewrite bool_decide_eq_false_2 by done. lia.
Qed.

(** C7.  With a path that is no existing file the upgrade raises at its
    first statement and leaves the process and the connection as they
    were: no duplicate has been made, no handshake has been started,
    nothing has been written. *)
Theorem switch_to_ssl_missing_file (pemfile : string) (w : world)
    (c : SafeStreamSocket) :
  path_isfile pemfile = false ->
  switch_to_ssl pemfile (w, c) = (Raise AssertionError, (w, c)) /\
  events (switch_to_ssl pemfile (w, c)).2.1 = events w /\
  outgoing (_sock (switch_to_ssl pemfile (w, c)).2.2) = outgoing (_sock c).
Proof. intros Hf. unfold switch_to_ssl. by rewrite Hf. Qed.
End Upgrade.

Lemma close_after_upgrade_misses_primary_witness :
  @switch_to_ssl demo_env "/tmp/pair.pem" (demo_started, demo_connection [])
  = (Return tt,
     ({| _n := 1; next_sock_id := 3;
         events := [EvConnect 0 AF_UNIX (Path "/var/run/usbmuxd");
                    EvDup 0 1; EvDetach 0; EvHandshake 2] |},
      set_sock {| sock_id := 2; incoming := []; outgoing := [];
                  recv_calls := []; is_ssl := true |}
        (set_gclist [0%nat; 1%nat] (demo_connection [])))) /\
  exists w2 c2,
    close_times 2 (@switch_to_ssl demo_env "/tmp/pair.pem"
                     (demo_started, demo_connection [])).2
    = (Return tt, (w2, c2)) /\
    closed c2 = true /\
    sock_id (_sock c2) = 2%nat /\
    events w2 = [EvConnect 0 AF_UNIX (Path "/var/run/usbmuxd");
                 EvDup 0 1; EvDetach 0; EvHandshake 2;
                 EvClose 0; EvClose 1] /\
    close_calls w2 2 = 0%nat /\
    sock_closed w2 2 = false.
Proof.
  split; [reflexivity|].
  destruct (@close_after_upgrade_misses_primary demo_env "/tmp/pair.pem"
              demo_started
              (@switch_to_ssl demo_env "/tmp/pair.pem"
                 (demo_started, demo_connection [])).2.1
              (demo_connection [])
              (@switch_to_ssl demo_env "/tmp/pair.pem"
                 (demo_started, demo_connection [])).2.2 1)
    as (_ & _ & _ & _ & w2 & c2 & E & Hc & Hs & He & _ & Hcalls).
  - split; [apply NoDup_singleton | repeat constructor].
  - reflexivity.
  - reflexivity.
  - exists w2, c2.
    split; [exact E|]. split; [exact Hc|]. split; [by rewrite Hs|].
    split; [by rewrite He|]. split.
    + rewrite Hs in Hcalls. exact Hcalls.
    + unfold sock_closed. by rewrite He.
Defined.

Lemma switch_to_ssl_missing_file_witness :
  @path_isfile demo_env "/tmp/none.pem" = false /\
  @switch_to_ssl demo_env "/tmp/none.pem" (demo_started, demo_connection [])
  = (Raise AssertionError, (demo_started, demo_connection [])).
Proof.
  split; [reflexivity|].
  apply (@switch_to_ssl_missing_file demo_env "/tmp/none.pem" demo_started
           (demo_connection [])).
  reflexivity.
Defined.

(** * Further properties *)

(** ** Reads *)

Lemma call_sock_recv_log bufsize c :
  0 < bufsize ->
  exists chunk c',
    call_sock (sock_recv bufsize) c = (Return chunk, c') /\
    pending c = chunk ++ pending c' /\
    (chunk = [] <-> pending c = []) /\
    recv_calls (_sock c') = bufsize :: recv_calls (_sock c).
Proof.
  intros Hk. destruct (sock_recv_spec bufsize (_sock c) Hk)
    as (chunk & s' & E & Hav & _ & Hnil & _ & _ & _ & Hlog).
  exists chunk, (set_sock s' c). unfold call_sock. rewrite E.
  repeat split; try done; apply Hnil.
Qed.

(** X1.  Two calls of [recvall], for [m] and then [n] bytes, on a
    connection with at least [m + n] bytes to come, return the two parts
    of what one call for [m + n] bytes returns, and leave the same bytes
    to be read. *)
Theorem recvall_split (m n : Z) (c : SafeStreamSocket) :
  0 <= m -> 0 <= n -> m + n <= len (pending c) ->
  exists b1 c1 b2 c2 c12,
    recvall m c = (Return b1, c1) /\
    recvall n c1 = (Return b2, c2) /\
    recvall (m + n) c = (Return (b1 ++ b2), c12) /\
    pending c2 = pending c12.
Proof.
  intros Hm Hn Hen.
  destruct (recvall_enough m c) as (c1 & E1 & Hp1 & _); [lia|].
  destruct (recvall_enough n c1) as (c2 & E2 & Hp2 & _).
  { rewrite Hp1. unfold len in *. rewrite length_drop. lia. }
  destruct (recvall_enough (m + n) c Hen) as (c12 & E12 & Hp12 & _).
  eexists _, c1, _, c2, c12. split; [exact E1|]. split; [exact E2|].
  split.
  - rewrite E12, Hp1, take_take_drop. do 3 f_equal. lia.
  - rewrite Hp2, Hp1, drop_drop, Hp12. f_equal. lia.
Qed.

Lemma recvall_split_witness :
  exists b1 c1 b2 c2 c12,
    recvall 1 (demo_connection [[x01; x02]; [x03; x04]]) = (Return b1, c1) /\
    recvall 2 c1 = (Return b2, c2) /\
    recvall (1 + 2) (demo_connection [[x01; x02]; [x03; x04]])
    = (Return (b1 ++ b2), c12) /\
    pending c2 = pending c12.
Proof.
  apply (recvall_split 1 2 (demo_connection [[x01; x02]; [x03; x04]]));
    [lia | lia | unfold len; simpl; lia].
Defined.

Lemma recvall_loop_drains fuel : forall size buf c,
  size - len buf <= Z.of_nat fuel ->
  len buf + len (pending c) < size ->
  pending (recvall_loop fuel size buf c).2 = [].
Proof.
  induction fuel as [|fuel IH]; intros size buf c Hfuel Hsh;
    rewrite recvall_loop_unfold;
    destruct (Z.ltb_spec (len buf) size) as [Hlt|Hge];
    try (pose proof (len_nonneg (pending c)); lia).
  destruct (call_sock_recv_spec (size - len buf) c) as
    (chunk & c1 & E & Hpend & Hlen & Hnil & _); [lia|].
  unfold bind. rewrite E. destruct chunk as [|b chunk].
  - simpl. assert (Hp : pending c = []) by by apply Hnil.
    rewrite Hp in Hpend. simpl in Hpend. done.
  - apply IH.
    + rewrite len_app. unfold len at 2. simpl. lia.
    + rewrite Hpend, !len_app in *. lia.
Qed.

Lemma recvall_short_drains (n : Z) (c : SafeStreamSocket) :
  len (pending c) < n ->
  exists c', recvall n c = (Raise broken, c') /\
             pending c' = [] /\
             outgoing (_sock c') = outgoing (_sock c).
Proof.
  intros Hsh. destruct (recvall_short n c Hsh) as (c' & E & Hro).
  exists c'. split; [done|]. split.
  - replace c' with (recvall n c).2 by by rewrite E.
    apply recvall_loop_drains; change (len (@nil byte)) with 0; lia.
  - by rewrite Hro.
Qed.

(** X2.  When fewer than [n] bytes arrive before the peer closes,
    [recvall(n)] raises having read all of them: the bytes it had
    gathered go with the exception, nothing is left to be read, and what
    the connection has written is as before. *)
Theorem recvall_broken_drains (n : Z) (c : SafeStreamSocket) :
  len (pending c) < n ->
  exists c', recvall n c = (Raise broken, c') /\
             pending c' = [] /\
             outgoing (_sock c') = outgoing (_sock c).
Proof. apply recvall_short_drains. Qed.

Lemma recvall_broken_drains_witness :
  exists c', recvall 5 (demo_connection [[x01; x02]; [x03]])
             = (Raise broken, c') /\
             pending c' = [] /\
             outgoing (_sock c')
             = outgoing (_sock (demo_connection [[x01; x02]; [x03]])).
Proof.
  apply (recvall_broken_drains 5 (demo_connection [[x01; x02]; [x03]])).
  unfold len. simpl. lia.
Defined.

Lemma call_sock_recv_full bufsize c :
  0 < bufsize ->
  exists chunk c',
    call_sock (sock_recv bufsize) c = (Return chunk, c') /\
    pending c = chunk ++ pending c' /\
    len chunk <= bufsize /\
    recv_calls (_sock c') = bufsize :: recv_calls (_sock c).
Proof.
  intros Hk. destruct (sock_recv_spec bufsize (_sock c) Hk)
    as (chunk & s' & E & Hav & Hlen & _ & _ & _ & _ & Hlog).
  exists chunk, (set_sock s' c). unfold call_sock. by rewrite E.
Qed.

Lemma read_requests_length size got chunks :
  length (read_requests size got chunks) = length chunks.
Proof.
  revert got. induction chunks as [|ch chunks IH]; intros got; [done|].
  simpl. by rewrite IH.
Qed.

Lemma recvall_loop_requests fuel : forall size buf c,
  size - len buf <= Z.of_nat fuel ->
  exists chunks,
    recv_calls (_sock (recvall_loop fuel size buf c).2)
    = reverse (read_requests size (len buf) chunks) ++ recv_calls (_sock c) /\
    concat chunks ++ pending (recvall_loop fuel size buf c).2 = pending c /\
    len (concat chunks) <= Z.max 0 (size - len buf) /\
    (length chunks <= Z.to_nat (size - len buf))%nat /\
    Forall (λ k, 0 < k <= size - len buf)
      (read_requests size (len buf) chunks).
Proof.
  induction fuel as [|fuel IH]; intros size buf c Hfuel;
    rewrite recvall_loop_unfold;
    destruct (Z.ltb_spec (len buf) size) as [Hlt|Hge]; try lia.
  1,3: exists []; simpl; change (len (@nil byte)) with 0;
       repeat split; try done; try lia; constructor.
  destruct (call_sock_recv_full (size - len buf) c) as
    (chunk & c1 & E & Hpend & Hlen & Hlog); [lia|].
  unfold bind. rewrite E. destruct chunk as [|b chunk].
  - exists [[]]. cbn [read_requests concat snd raise reverse].
    change (len (@nil byte)) with 0. rewrite app_nil_r.
    split; [by rewrite Hlog|]. split; [by rewrite Hpend|].
    split; [lia|]. split; [simpl; lia|].
    constructor; [lia | constructor].
  - set (ch := b :: chunk) in *.
    assert (0 < len ch) by (unfold len, ch; simpl; lia).
    destruct (IH size (buf ++ ch) c1) as (chunks & Hcalls & Hcat & Hl & Hk & Hall).
    { rewrite len_app. lia. }
    rewrite len_app in Hcalls, Hl, Hk, Hall.
    exists (ch :: chunks). cbn [read_requests concat].
    split; [|split; [|split; [|split]]].
    + by rewrite Hcalls, Hlog, reverse_cons, <- app_assoc.
    + by rewrite <- app_assoc, Hcat, Hpend.
    + rewrite len_app. lia.
    + simpl length. lia.
    + constructor; [lia|].
      eapply Forall_impl; [exact Hall|]. simpl. lia.
Qed.

(** X3.  The reads of [recvall(n)], however the call ends: there are at
    most [n] of them; each asks for exactly the bytes still missing, [n]
    less what the reads before it got; what they get, taken together, is
    the front of what was to come, the rest being left to be read, and
    is never more than [n] bytes. *)
Theorem recvall_read_bound (n : Z) (c : SafeStreamSocket) :
  exists chunks,
    recv_calls (_sock (recvall n c).2)
    = reverse (read_requests n 0 chunks) ++ recv_calls (_sock c) /\
    concat chunks ++ pending (recvall n c).2 = pending c /\
    len (concat chunks) <= Z.max 0 n /\
    (length chunks <= Z.to_nat n)%nat /\
    Forall (λ k, 0 < k <= n) (read_requests n 0 chunks).
Proof.
  destruct (recvall_loop_requests (Z.to_nat n) n [] c) as (chunks & Hc).
  { change (len (@nil byte)) with 0. lia. }
  change (len (@nil byte)) with 0 in Hc. rewrite Z.sub_0_r in Hc.
  by exists chunks.
Qed.

(** ** The id allocator, once more *)

Lemma get_uniq_ids_consecutive threads : forall w,
  exists res w',
    get_uniq_ids threads w = (Return res, w') /\
    res.*2 = seqZ (_n w + 1) (len threads) /\
    _n w' = _n w + len threads /\
    next_sock_id w' = next_sock_id w /\ events w' = events w.
Proof.
  induction threads as [|t threads IH]; intros w.
  - exists [], w. unfold len. simpl. repeat split; try done. lia.
  - destruct (IH (get_uniq_id w).2) as (res & w' & E & Hres & Hn & Hs & He).
    simpl in Hn, Hs, He, Hres.
    exists ((t, _n w + 1) :: res), w'. split; [|split; [|split]].
    + simpl. unfold bind at 1. unfold get_uniq_id at 1.
      unfold bind at 1. simpl in E. by rewrite E.
    + rewrite fmap_cons, Hres. unfold len. cbn [length snd].
      rewrite (seqZ_cons (_n w + 1)) by lia. f_equal. f_equal; lia.
    + unfold len in *. simpl length. lia.
    + done.
Qed.

(** X4.  The values are handed out without gaps: from a counter at [v],
    the calls of a sequence get [v + 1], [v + 2], ... in the order in
    which they are let in, and the counter ends at [v] plus their
    number; nothing else of the process changes. *)
Theorem get_uniq_id_consecutive (threads : list nat) (w : world) :
  exists res w',
    get_uniq_ids threads w = (Return res, w') /\
    res.*1 = threads /\
    res.*2 = seqZ (_n w + 1) (len threads) /\
    _n w' = _n w + len threads /\
    next_sock_id w' = next_sock_id w /\ events w' = events w.
Proof.
  destruct (get_uniq_ids_consecutive threads w)
    as (res & w' & E & Hres & Hn & Hs & He).
  destruct (get_uniq_ids_spec threads w) as (res0 & w0 & E0 & Ht & _).
  rewrite E in E0. injection E0 as <- <-.
  by exists res, w'.
Qed.

(** ** Packets, further *)

Lemma recvall_reads_only n c : reads_only c (recvall n c).2.
Proof.
  destruct (Z_le_gt_dec n (len (pending c))) as [Hen|Hsh].
  - by destruct (recvall_enough n c Hen) as (c' & -> & _ & Hro).
  - destruct (recvall_short n c) as (c' & -> & Hro); [lia | done].
Qed.

Lemma preserves_inherited_recvall (P : PlistSocket -> Prop) n :
  (forall q c', P q -> reads_only (base q) c' -> P (set_base c' q)) ->
  preserves P (inherited (recvall n)).
Proof.
  intros HP q Hq. unfold inherited.
  pose proof (recvall_reads_only n (base q)) as Hro.
  destruct (recvall n (base q)) as [r c']. by apply HP.
Qed.

Section PacketsFurther.
Context `{Host} {payload : Type} `{Plistlib payload}.

Lemma struct_pack_fail p vals :
  forallb u32_ok vals = false -> struct_pack p vals = Raise StructError.
Proof.
  induction vals as [|v vals IH]; [done|]. simpl.
  destruct (u32_ok v); [|done]. simpl. intros Hf. by rewrite IH.
Qed.

(** What [recv_packet] keeps: any property of the channel that reads
    and the clearing of the flag keep. *)
Lemma recv_packet_preserves (P : PlistSocket -> Prop) hs :
  (forall q c', P q -> reads_only (base q) c' -> P (set_base c' q)) ->
  (forall q, P q -> P (set_first false q)) ->
  preserves P (recv_packet (payload:=payload) hs).
Proof.
  intros Hread Hclear. unfold recv_packet.
  apply preserves_bind; [apply preserves_gets|]. intros first.
  apply preserves_bind.
  - destruct (first || bool_decide (hs = Some 16)).
    + apply preserves_bind; [by apply preserves_inherited_recvall|].
      intros hdr. apply preserves_bind; [apply preserves_lift_outcome|].
      intros [|l [|v [|r [|t [|? ?]]]]]; try apply preserves_raise.
      apply preserves_bind; [intros q Hq; by apply Hclear|].
      intros _. apply preserves_ret.
    + apply preserves_bind; [by apply preserves_inherited_recvall|].
      intros hdr. apply preserves_bind; [apply preserves_lift_outcome|].
      intros [|l [|? ?]]; apply preserves_raise || apply preserves_ret.
  - intros l. apply preserves_bind; [by apply preserves_inherited_recvall|].
    intros body. destruct (loads body); apply preserves_raise || apply preserves_ret.
Qed.

Lemma send_packet_cases (p : PlistSocket) (pl : payload) (mt : Z) :
  ((if _first p
    then u32_ok (16 + len (dumps pl)) && u32_ok mt && u32_ok (_tag p)
    else u32_ok (len (dumps pl))) = true /\
   exists header,
     send_packet pl mt p = (Return tt, written (header ++ dumps pl) p) /\
     len header = if _first p then 16 else 4) \/
  ((if _first p
    then u32_ok (16 + len (dumps pl)) && u32_ok mt && u32_ok (_tag p)
    else u32_ok (len (dumps pl))) = false /\
   send_packet pl mt p = (Raise StructError, p)).
Proof.
  destruct (_first p) eqn:Hf.
  - destruct (u32_ok (16 + len (dumps pl)) && u32_ok mt && u32_ok (_tag p))
      eqn:Hfit.
    + left. split; [done|].
      apply andb_true_iff in Hfit as [[Hl Hm]%andb_true_iff Ht].
      eexists. split; [by apply send_packet_first|].
      unfold len. by rewrite first_header_length.
    + right. split; [done|].
      unfold send_packet, bind, gets, lift_outcome. rewrite Hf.
      rewrite struct_pack_fail; [done|].
      simpl. rewrite andb_true_r.
      change (u32_ok 1) with true. cbn [andb].
      by rewrite andb_assoc.
  - destruct (u32_ok (len (dumps pl))) eqn:Hfit.
    + left. split; [done|].
      eexists. split; [by apply send_packet_next|].
      unfold len. by rewrite u32_bytes_length.
    + right. split; [done|]. by apply send_packet_next_overflow.
Qed.

(** X5.  [send_packet] raises [struct.error] exactly when a field of
    the header does not fit its four bytes: on the first message the
    total length, the message type or the tag, later the length of the
    payload.  It raises before anything is given to the socket: nothing
    has been written and the channel is as it was. *)
Theorem send_packet_struct_error (p : PlistSocket) (pl : payload) (mt : Z) :
  ((send_packet pl mt p).1 = Raise StructError <->
   (if _first p
    then u32_ok (16 + len (dumps pl)) && u32_ok mt && u32_ok (_tag p)
    else u32_ok (len (dumps pl))) = false) /\
  ((send_packet pl mt p).1 = Raise StructError ->
   (send_packet pl mt p).2 = p /\ sent_by (send_packet pl mt) p = []).
Proof.
  destruct (send_packet_cases p pl mt) as [[Hfit (hdr & E & _)] | [Hfit E]];
    rewrite Hfit, E; simpl.
  - split; [split; done | done].
  - split; [done|]. intros _. split; [done|].
    unfold sent_by. rewrite E. simpl. by rewrite drop_all.
Qed.

(** X6.  [send_packet] never reads and [recv_packet] never writes,
    however they end; neither changes the tag of the channel nor
    whether its socket is an SSL socket. *)
Theorem send_reads_nothing_recv_writes_nothing (p : PlistSocket)
    (pl : payload) (mt : Z) (hs : option Z) :
  (pending (base (send_packet pl mt p).2) = pending (base p) /\
   recv_calls (_sock (base (send_packet pl mt p).2))
   = recv_calls (_sock (base p)) /\
   _tag (send_packet pl mt p).2 = _tag p /\
   is_secure (send_packet pl mt p).2 = is_secure p) /\
  (wire (recv_packet (payload:=payload) hs p).2 = wire p /\
   _tag (recv_packet (payload:=payload) hs p).2 = _tag p /\
   is_secure (recv_packet (payload:=payload) hs p).2 = is_secure p).
Proof.
  split.
  - destruct (send_packet_cases p pl mt)
      as [[_ (hdr & -> & _)] | [_ ->]]; done.
  - apply (recv_packet_preserves
             (λ q, wire q = wire p /\ _tag q = _tag p /\
                   is_secure q = is_secure p) hs); [| |done].
    + intros q c' (Hw & Ht & Hs) Hro. unfold wire, is_secure in *.
      rewrite Hro. done.
    + by intros q.
Qed.

(** X7.  The argument [header_size] counts only when it is [16]: with
    any other value, and with any value at all while the flag is set,
    [recv_packet] does what it does without the argument. *)
Theorem header_size_only_16 (hs : option Z) (p : PlistSocket) :
  hs <> Some 16 \/ _first p = true ->
  recv_packet (payload:=payload) hs p = recv_packet None p.
Proof.
  intros Hhs. unfold recv_packet, bind, gets.
  destruct Hhs as [Hhs | ->]; [|done].
  by rewrite bool_decide_eq_false_2.
Qed.
End PacketsFurther.

Lemma header_size_only_16_witness :
  @recv_packet little_host bytes raw_plistlib (Some 4)
    (demo_channel true [[x10; x00; x00; x00]])
  = @recv_packet little_host bytes raw_plistlib None
      (demo_channel true [[x10; x00; x00; x00]]).
Proof.
  apply (@header_size_only_16 little_host bytes raw_plistlib). by left.
Defined.

(** ** Calls that do not see the segments *)

Lemma same_stream_refl q : same_stream q q.
Proof. done. Qed.

Lemma segment_blind_ret {A} (a : A) : segment_blind (ret a).
Proof. by intros q1 q2 Hq. Qed.

Lemma segment_blind_raise {A} e : segment_blind (@raise PlistSocket A e).
Proof. by intros q1 q2 Hq. Qed.

Lemma segment_blind_lift_outcome {A} (o : outcome A) :
  segment_blind (@lift_outcome PlistSocket A o).
Proof. by intros q1 q2 Hq. Qed.

Lemma segment_blind_gets_first : segment_blind (gets _first).
Proof. intros q1 q2 [Hf Hp]. unfold gets. simpl. by rewrite Hf. Qed.

Lemma segment_blind_clear : segment_blind (modify (set_first false)).
Proof. by intros q1 q2 [Hf Hp]. Qed.

Lemma segment_blind_bind {A B} (m : M PlistSocket A) (k : A -> M PlistSocket B) :
  segment_blind m -> (forall a, segment_blind (k a)) ->
  segment_blind (bind m k).
Proof.
  intros Hm Hk q1 q2 Hq. unfold bind. destruct (Hm q1 q2 Hq) as [Hr Hs].
  destruct (m q1) as [[a1|e1] s1], (m q2) as [[a2|e2] s2]; simpl in *;
    try done.
  - injection Hr as ->. by apply Hk.
  - by injection Hr as ->.
Qed.

Lemma segment_blind_recvall n : segment_blind (inherited (recvall n)).
Proof.
  intros q1 q2 [Hf Hp]. unfold inherited.
  destruct (Z_le_gt_dec n (len (pending (base q1)))) as [Hen|Hsh].
  - destruct (recvall_enough n (base q1) Hen) as (c1 & -> & Hp1 & _).
    rewrite Hp in Hen.
    destruct (recvall_enough n (base q2) Hen) as (c2 & -> & Hp2 & _).
    simpl. rewrite Hp. split; [done|]. split; [done|]. simpl.
    by rewrite Hp1, Hp2, Hp.
  - destruct (recvall_short_drains n (base q1)) as (c1 & -> & Hp1 & _); [lia|].
    rewrite Hp in Hsh.
    destruct (recvall_short_drains n (base q2)) as (c2 & -> & Hp2 & _); [lia|].
    simpl. split; [done|]. split; [done|]. simpl. by rewrite Hp1, Hp2.
Qed.

Section Segments.
Context `{Host} {payload : Type} `{Plistlib payload}.

Lemma recv_packet_blind hs : segment_blind (recv_packet (payload:=payload) hs).
Proof.
  unfold recv_packet.
  apply segment_blind_bind; [apply segment_blind_gets_first|]. intros first.
  apply segment_blind_bind.
  - destruct (first || bool_decide (hs = Some 16)).
    + apply segment_blind_bind; [apply segment_blind_recvall|]. intros hdr.
      apply segment_blind_bind; [apply segment_blind_lift_outcome|].
      intros [|l [|v [|r [|t [|? ?]]]]]; try apply segment_blind_raise.
      apply segment_blind_bind; [apply segment_blind_clear|].
      intros _. apply segment_blind_ret.
    + apply segment_blind_bind; [apply segment_blind_recvall|]. intros hdr.
      apply segment_blind_bind; [apply segment_blind_lift_outcome|].
      intros [|l [|? ?]]; apply segment_blind_raise || apply segment_blind_ret.
  - intros l. apply segment_blind_bind; [apply segment_blind_recvall|].
    intros body.
    destruct (loads body); apply segment_blind_raise || apply segment_blind_ret.
Qed.

(** X8.  What [recv_packet] returns or raises, the bytes it leaves to
    be read and the flag it leaves depend on the flag and on the bytes
    that arrive, and not on the segments in which they arrive; so it is
    with any number of packets received in a row. *)
Theorem recv_packet_segment_blind (hs : option Z) (k : nat) :
  segment_blind (recv_packet (payload:=payload) hs) /\
  segment_blind (recv_packets (payload:=payload) k).
Proof.
  split; [apply recv_packet_blind|].
  induction k as [|k IH]; [apply segment_blind_ret|]. simpl.
  apply segment_blind_bind; [apply recv_packet_blind|]. intros pl.
  apply segment_blind_bind; [exact IH|]. intros pls. apply segment_blind_ret.
Qed.

(** X9.  A packet cut short: when the header has arrived and the
    peer closes before the payload is complete, [recv_packet] raises
    "socket connection broken" with all input read; on the sixteen-byte
    path the flag is cleared all the same. *)
Theorem recv_packet_truncated (q : PlistSocket) (hs : option Z) :
  (forall l v r t body,
     _first q = true \/ hs = Some 16 ->
     u32_ok l = true -> u32_ok v = true -> u32_ok r = true ->
     u32_ok t = true ->
     pending (base q)
     = (u32_bytes sys_byteorder l ++ u32_bytes sys_byteorder v ++
        u32_bytes sys_byteorder r ++ u32_bytes sys_byteorder t) ++ body ->
     len body < l - 16 ->
     exists q', recv_packet (payload:=payload) hs q = (Raise broken, q') /\
                _first q' = false /\ pending (base q') = []) /\
  (forall n body,
     _first q = false -> hs <> Some 16 -> u32_ok n = true ->
     pending (base q) = u32_bytes BigEndian n ++ body ->
     len body < n ->
     exists q', recv_packet (payload:=payload) hs q = (Raise broken, q') /\
                _first q' = false /\ pending (base q') = []).
Proof.
  split.
  - intros l v r t body Hf Hl Hv Hr Ht Hpend Hlen.
    set (hdr := u32_bytes sys_byteorder l ++ u32_bytes sys_byteorder v ++
                u32_bytes sys_byteorder r ++ u32_bytes sys_byteorder t) in *.
    assert (Hhl : length hdr = 16%nat).
    { unfold hdr. by rewrite !length_app, !u32_bytes_length. }
    destruct (inherited_recvall_enough 16 q) as (c1 & E1 & Hp1 & _).
    { rewrite Hpend, len_app. pose proof (len_nonneg body).
      unfold len in *. lia. }
    rewrite Hpend in E1, Hp1.
    change (Z.to_nat 16) with 16%nat in *. rewrite <- Hhl in E1 at 1.
    rewrite <- Hhl in Hp1. rewrite take_app_length in E1.
    rewrite drop_app_length in Hp1.
    destruct (recvall_short_drains (l - 16) c1) as (c2 & E2 & Hp2 & _).
    { by rewrite Hp1. }
    exists (set_base c2 (set_first false (set_base c1 q))).
    split; [|done].
    unfold recv_packet, bind, gets.
    replace (_first q || bool_decide (hs = Some 16)) with true.
    2:{ destruct Hf as [-> | ->]; [done|].
        rewrite bool_decide_eq_true_2 by done. by rewrite orb_true_r. }
    rewrite E1. unfold lift_outcome.
    assert (Hun : struct_unpack NativePrefix 4 hdr = Return [l; v; r; t]).
    { apply (struct_unpack_pack NativePrefix [l; v; r; t]).
      rewrite struct_pack_ok by (repeat constructor; done).
      unfold hdr. simpl. by rewrite app_nil_r. }
    rewrite Hun. unfold modify, ret, inherited. cbn [base set_first set_base].
    by rewrite E2.
  - intros n body Hf Hhs Hn Hpend Hlen.
    destruct (inherited_recvall_enough 4 q) as (c1 & E1 & Hp1 & _).
    { rewrite Hpend, len_app. pose proof (len_nonneg body).
      unfold len in *. rewrite u32_bytes_length. lia. }
    rewrite Hpend in E1, Hp1.
    change (Z.to_nat 4) with 4%nat in *.
    rewrite <- (u32_bytes_length BigEndian n) in E1 at 1.
    rewrite <- (u32_bytes_length BigEndian n) in Hp1.
    rewrite take_app_length in E1. rewrite drop_app_length in Hp1.
    destruct (recvall_short_drains n c1) as (c2 & E2 & Hp2 & _).
    { by rewrite Hp1. }
    exists (set_base c2 (set_base c1 q)). split; [|done].
    unfold recv_packet, bind, gets. rewrite Hf.
    rewrite bool_decide_eq_false_2 by done. cbn [orb].
    rewrite E1. unfold lift_outcome.
    assert (Hun : struct_unpack NetworkPrefix 1 (u32_bytes BigEndian n)
                  = Return [n]).
    { apply (struct_unpack_pack NetworkPrefix [n]).
      rewrite struct_pack_ok by (repeat constructor; done).
      cbn [map concat order_of]. by rewrite app_nil_r. }
    rewrite Hun. unfold ret, inherited. cbn [base set_base].
    by rewrite E2.
Qed.

(** X10.  A first header whose length field is sixteen or less: the
    length of the payload comes out as zero or less, no byte after the
    header is taken, and [plistlib] is given the empty data; the bytes
    after the header stay to be read and the flag is cleared. *)
Theorem recv_packet_short_length (q : PlistSocket) (hs : option Z)
    (l v r t : Z) (rest : bytes) :
  _first q = true \/ hs = Some 16 ->
  u32_ok l = true -> u32_ok v = true -> u32_ok r = true -> u32_ok t = true ->
  l <= 16 ->
  pending (base q)
  = (u32_bytes sys_byteorder l ++ u32_bytes sys_byteorder v ++
     u32_bytes sys_byteorder r ++ u32_bytes sys_byteorder t) ++ rest ->
  exists q',
    recv_packet hs q
    = (match loads [] with
       | Some pl => Return pl
       | None => Raise InvalidFileException
       end, q') /\
    pending (base q') = rest /\ _first q' = false.
Proof.
  intros Hf Hl Hv Hr Ht Hshort Hpend.
  set (hdr := u32_bytes sys_byteorder l ++ u32_bytes sys_byteorder v ++
              u32_bytes sys_byteorder r ++ u32_bytes sys_byteorder t) in *.
  assert (Hhl : length hdr = 16%nat).
  { unfold hdr. by rewrite !length_app, !u32_bytes_length. }
  destruct (inherited_recvall_enough 16 q) as (c1 & E1 & Hp1 & _).
  { rewrite Hpend, len_app. pose proof (len_nonneg rest).
    unfold len in *. lia. }
  rewrite Hpend in E1, Hp1.
  change (Z.to_nat 16) with 16%nat in *. rewrite <- Hhl in E1 at 1.
  rewrite <- Hhl in Hp1. rewrite take_app_length in E1.
  rewrite drop_app_length in Hp1.
  destruct (inherited_recvall_enough (l - 16) (set_first false (set_base c1 q)))
    as (c2 & E2 & Hp2 & _).
  { simpl. pose proof (len_nonneg (pending c1)). lia. }
  simpl in E2, Hp2. rewrite Hp1 in E2, Hp2.
  replace (Z.to_nat (l - 16)) with 0%nat in * by lia.
  rewrite take_0 in E2. rewrite drop_0 in Hp2.
  exists (set_base c2 (set_first false (set_base c1 q))).
  split; [|done].
  unfold recv_packet, bind, gets.
  replace (_first q || bool_decide (hs = Some 16)) with true.
  2:{ destruct Hf as [-> | ->]; [done|].
      rewrite bool_decide_eq_true_2 by done. by rewrite orb_true_r. }
  rewrite E1. unfold lift_outcome.
  assert (Hun : struct_unpack NativePrefix 4 hdr = Return [l; v; r; t]).
  { apply (struct_unpack_pack NativePrefix [l; v; r; t]).
    rewrite struct_pack_ok by (repeat constructor; done).
    unfold hdr. simpl. by rewrite app_nil_r. }
  rewrite Hun. unfold modify, ret. rewrite E2.
  by destruct (loads []).
Qed.

Lemma written_written a b p : written b (written a p) = written (a ++ b) p.
Proof. unfold written, wire. simpl. by rewrite app_assoc. Qed.

Lemma written_nil p : written [] p = p.
Proof.
  unfold written, wire. rewrite app_nil_r.
  by destruct p as [[? ? [] ? ?] ? ?].
Qed.

Lemma send_packets_later (pls : list payload) mt : forall p,
  _first p = false ->
  Forall (λ pl, u32_ok (len (dumps pl)) = true) pls ->
  send_packets pls mt p
  = (Return tt, written (concat (map later_frame pls)) p).
Proof.
  induction pls as [|pl pls IH]; intros p Hf Hall.
  - simpl. by rewrite written_nil.
  - inversion Hall as [|? ? Hpl Hall']; subst.
    cbn [send_packets]. unfold bind.
    rewrite (send_packet_next p pl mt Hf Hpl).
    rewrite IH by done. by rewrite written_written.
Qed.

Lemma recv_packets_later (pls : list payload) : forall q rest,
  _first q = false ->
  Forall (λ pl, u32_ok (len (dumps pl)) = true /\
                loads (dumps pl) = Some pl) pls ->
  pending (base q) = concat (map later_frame pls) ++ rest ->
  exists q', recv_packets (length pls) q = (Return pls, q') /\
             pending (base q') = rest /\ _first q' = false.
Proof.
  induction pls as [|pl pls IH]; intros q rest Hf Hall Hpend.
  - by exists q.
  - inversion Hall as [|? ? [Hok Hloads] Hall']; subst.
    cbn [map concat] in Hpend. unfold later_frame at 1 in Hpend.
    rewrite <- !app_assoc in Hpend.
    destruct (recv_packet_next q None _ _ _ Hf ltac:(done) Hok Hpend eq_refl)
      as (q1 & E1 & Hf1 & _ & Hp1 & _).
    rewrite Hloads in E1.
    destruct (IH q1 rest Hf1 Hall' Hp1) as (q' & E' & Hp' & Hf').
    exists q'. split; [|done].
    cbn [length recv_packets]. unfold bind. by rewrite E1, E'.
Qed.

(** X11.  Past the first message the channel carries a stream of
    packets: payloads sent one after the other are received one after
    the other, in the order sent and each as it was sent, in whatever
    segments the bytes arrive, provided each fits the length field and
    is read back by [plistlib]. *)
Theorem packet_stream_round_trip (p q : PlistSocket) (pls : list payload)
    (mt : Z) (rest : bytes) :
  _first p = false -> _first q = false ->
  Forall (λ pl, u32_ok (len (dumps pl)) = true /\
                loads (dumps pl) = Some pl) pls ->
  pending (base q) = sent_by (send_packets pls mt) p ++ rest ->
  (send_packets pls mt p).1 = Return tt /\
  exists q', recv_packets (length pls) q = (Return pls, q') /\
             pending (base q') = rest.
Proof.
  intros Hp Hq Hall Hpend.
  assert (E : send_packets pls mt p
              = (Return tt, written (concat (map later_frame pls)) p)).
  { apply send_packets_later; [done|].
    eapply Forall_impl; [exact Hall|]. by intros pl [? _]. }
  rewrite (sent_by_written _ _ _ _ E) in Hpend. rewrite E. split; [done|].
  destruct (recv_packets_later pls q rest Hq Hall Hpend) as (q' & E' & Hr & _).
  by exists q'.
Qed.

(** X12.  [send_recv_packet] is a request with message type 8 and the
    receipt of the reply.  On the first message the request goes out
    under the sixteen-byte header and a reply under a sixteen-byte
    header is read; later both are under four-byte headers; the flag is
    clear afterwards.  When the request does not fit its header
    nothing is sent and nothing is read. *)
Theorem send_recv_packet_exchange (p : PlistSocket) (pl : payload) :
  (forall l v r t body rest,
     _first p = true ->
     u32_ok (16 + len (dumps pl)) = true -> u32_ok (_tag p) = true ->
     u32_ok l = true -> u32_ok v = true -> u32_ok r = true ->
     u32_ok t = true ->
     pending (base p)
     = (u32_bytes sys_byteorder l ++ u32_bytes sys_byteorder v ++
        u32_bytes sys_byteorder r ++ u32_bytes sys_byteorder t)
       ++ body ++ rest ->
     len body = l - 16 ->
     exists p',
       send_recv_packet pl p
       = (match loads body with
          | Some reply => Return reply
          | None => Raise InvalidFileException
          end, p') /\
       wire p' = wire p ++ first_header sys_byteorder (len (dumps pl)) 8
                             (_tag p) ++ dumps pl /\
       pending (base p') = rest /\ _first p' = false) /\
  (forall n body rest,
     _first p = false -> u32_ok (len (dumps pl)) = true ->
     u32_ok n = true ->
     pending (base p) = u32_bytes BigEndian n ++ body ++ rest ->
     len body = n ->
     exists p',
       send_recv_packet pl p
       = (match loads body with
          | Some reply => Return reply
          | None => Raise InvalidFileException
          end, p') /\
       wire p' = wire p ++ later_frame pl /\
       pending (base p') = rest /\ _first p' = false) /\
  ((if _first p
    then u32_ok (16 + len (dumps pl)) && u32_ok (_tag p)
    else u32_ok (len (dumps pl))) = false ->
   send_recv_packet pl p = (Raise StructError, p)).
Proof.
  split; [|split].
  - intros l v r t body rest Hf Hl Ht Hl' Hv' Hr' Ht' Hpend Hlen.
    pose proof (send_packet_first p pl 8 Hf Hl eq_refl Ht) as E.
    destruct (recv_packet_first (written (first_header sys_byteorder
                (len (dumps pl)) 8 (_tag p) ++ dumps pl) p) None
                l v r t body rest (or_introl Hf) Hl' Hv' Hr' Ht' Hpend Hlen)
      as (p' & E' & Hf' & _ & Hrest & Hro).
    exists p'. unfold send_recv_packet, bind. rewrite E, E'.
    split; [done|]. split; [|done].
    unfold wire in *. rewrite Hro. done.
  - intros n body rest Hf Hl Hn Hpend Hlen.
    pose proof (send_packet_next p pl 8 Hf Hl) as E.
    destruct (recv_packet_next (written (u32_bytes BigEndian (len (dumps pl))
                ++ dumps pl) p) None n body rest Hf ltac:(done) Hn Hpend Hlen)
      as (p' & E' & Hf' & _ & Hrest & Hro).
    exists p'. unfold send_recv_packet, bind. rewrite E, E'.
    split; [done|]. split; [|done].
    unfold wire in *. rewrite Hro. done.
  - intros Hfit. unfold send_recv_packet, bind.
    destruct (send_packet_cases p pl 8) as [[Hok _] | [_ ->]];
      [|done].
    change (u32_ok 8) with true in Hok. rewrite andb_true_r in Hok.
    congruence.
Qed.
End Segments.

Lemma recv_packet_truncated_witness :
  exists q',
    @recv_packet little_host bytes raw_plistlib None
      (demo_channel false [[x00; x00; x00; x03]; [x41; x42]])
    = (Raise broken, q') /\
    _first q' = false /\ pending (base q') = [].
Proof.
  destruct (@recv_packet_truncated little_host bytes raw_plistlib
              (demo_channel false [[x00; x00; x00; x03]; [x41; x42]]) None)
    as [_ Hlater].
  apply (Hlater 3 [x41; x42]); try reflexivity. done.
Defined.

Lemma recv_packet_short_length_witness :
  exists q',
    @recv_packet little_host bytes raw_plistlib None
      (demo_channel true
         [[x04; x00; x00; x00; x01; x00; x00; x00;
           x08; x00; x00; x00; x00; x00; x00; x00; x41]])
    = (Return [], q') /\
    pending (base q') = [x41] /\ _first q' = false.
Proof.
  apply (@recv_packet_short_length little_host bytes raw_plistlib
           (demo_channel true
              [[x04; x00; x00; x00; x01; x00; x00; x00;
                x08; x00; x00; x00; x00; x00; x00; x00; x41]])
           None 4 1 8 0 [x41]);
    try reflexivity; [by left | lia].
Defined.

Lemma packet_stream_round_trip_witness :
  (@send_packets little_host bytes raw_plistlib [[x41]; [x42; x43]] 8
     (demo_channel false [])).1 = Return tt /\
  exists q',
    @recv_packets little_host bytes raw_plistlib 2
      (demo_channel false
         [[x00; x00]; [x00; x01; x41; x00; x00; x00]; [x02; x42; x43; xff]])
    = (Return [[x41]; [x42; x43]], q') /\
    pending (base q') = [xff].
Proof.
  apply (@packet_stream_round_trip little_host bytes raw_plistlib
           (demo_channel false []) _ [[x41]; [x42; x43]] 8 [xff]);
    try reflexivity.
  repeat constructor.
Defined.

Lemma send_recv_packet_exchange_witness :
  exists p',
    @send_recv_packet little_host bytes raw_plistlib [x41]
      (demo_channel true
         [[x12; x00; x00; x00; x01; x00; x00; x00;
           x08; x00; x00; x00; x00; x00; x00; x00]; [x4f; x4b]])
    = (Return [x4f; x4b], p') /\
    wire p' = [x11; x00; x00; x00; x01; x00; x00; x00;
               x08; x00; x00; x00; x00; x00; x00; x00; x41] /\
    pending (base p') = [] /\ _first p' = false.
Proof.
  destruct (@send_recv_packet_exchange little_host bytes raw_plistlib
              (demo_channel true
                 [[x12; x00; x00; x00; x01; x00; x00; x00;
                   x08; x00; x00; x00; x00; x00; x00; x00]; [x4f; x4b]])
              [x41]) as [Hfirst _].
  apply (Hfirst 18 1 8 0 [x4f; x4b] []); reflexivity.
Defined.

(** ** Construction, upgrade and release, further *)


Section Construction.
Context `{Env}.

Lemma SafeStreamSocket__init__id addr w :
  _n (SafeStreamSocket__init__ addr w).2 = _n w + 1 /\
  forall c w', SafeStreamSocket__init__ addr w = (Return c, w') ->
    _id c = _n w + 1 /\ _name c = None.
Proof.
  unfold SafeStreamSocket__init__, bind, lift_outcome. cbn [get_uniq_id].
  assert (Hconn : forall f sa,
    _n (socket_connect f sa (get_uniq_id w).2).2 = _n w + 1).
  { intros f sa. unfold socket_connect.
    destruct sa; [| |done]; by destruct (connect_peer f _). }
  destruct addr as [s|a|host port|]; cbv beta iota.
  - split; [done|]. by intros c w' [= <- <-].
  - destruct (init_family (AddrStr a)) as [[f sa]|e]; [|done].
    specialize (Hconn f sa). cbn [fst snd].
    destruct (socket_connect f sa _) as [[s|e] w1]; [|done].
    split; [done|]. by intros c w' [= <- <-].
  - change (init_family (AddrTuple host port))
      with (Return (AF_INET, HostPort host port)).
    cbv beta iota. cbn [fst snd].
    specialize (Hconn AF_INET (HostPort host port)).
    destruct (socket_connect _ _ _) as [[s|e] w1]; [|done].
    split; [done|]. by intros c w' [= <- <-].
  - done.
Qed.

(** X14.  The constructor takes one value from the id counter whatever
    the address and however it ends.  A connection it returns has that
    value as id and no name, is open and owns just the socket it holds;
    a socket passed in is taken as it is, with no connection attempt;
    and of two connections the one constructed later has the greater
    id. *)
Theorem SafeStreamSocket__init__outcomes (addr : address) (w : world) :
  _n (SafeStreamSocket__init__ addr w).2 = _n w + 1 /\
  (forall c w', SafeStreamSocket__init__ addr w = (Return c, w') ->
     _id c = _n w + 1 /\ _name c = None /\ closed c = false /\
     _sock_gclist c = [sock_id (_sock c)]) /\
  (forall s, addr = AddrSocket s ->
     exists c w', SafeStreamSocket__init__ addr w = (Return c, w') /\
                  _sock c = s /\ events w' = events w /\
                  next_sock_id w' = next_sock_id w) /\
  (forall c w' addr2 w2 c2 w2',
     SafeStreamSocket__init__ addr w = (Return c, w') ->
     _n w' <= _n w2 ->
     SafeStreamSocket__init__ addr2 w2 = (Return c2, w2') ->
     _id c < _id c2).
Proof.
  destruct (SafeStreamSocket__init__id addr w) as [Hn Hid].
  split; [done|]. split; [|split].
  - intros c w' E. destruct (Hid c w' E) as [-> ->].
    split; [done|]. split; [done|].
    assert (Hshape : finalizer_alive c = true /\
                     _sock_gclist c = [sock_id (_sock c)]).
    { revert E. unfold SafeStreamSocket__init__, bind.
      destruct (get_uniq_id w) as [[id|e] w0]; [|done].
      destruct (match addr with AddrSocket s => ret s | _ => _ end w0)
        as [[s|e] w1]; [|done].
      by intros [= <- <-]. }
    destruct Hshape as [Ha Hg]. unfold closed. by rewrite Ha.
  - intros s ->. eexists _, _. split; [reflexivity|]. done.
  - intros c w' addr2 w2 c2 w2' E Hle E2.
    destruct (Hid c w' E) as [-> _].
    destruct (SafeStreamSocket__init__id addr2 w2) as [_ Hid2].
    destruct (Hid2 c2 w2' E2) as [-> _].
    rewrite E in Hn. simpl in Hn. lia.
Qed.

(** X15.  A channel cannot be constructed from a channel: the address
    is not a socket and not a string, so a socket is created and asked
    to connect to the object, which raises [TypeError]; the branch that
    would copy the tag and the flag of the other channel is never
    reached.  An id and a socket have been used by then. *)
Theorem PlistSocket_from_PlistSocket (p0 : PlistSocket) (tag : Z) (w : world) :
  PlistSocket__init__ (AddrPlistSocket p0) tag w
  = (Raise TypeError,
     {| _n := _n w + 1; next_sock_id := S (next_sock_id w);
        events := events w ++ [EvConnect (next_sock_id w) AF_INET Object] |}) /\
  forall addr p w',
    PlistSocket__init__ addr tag w = (Return p, w') ->
    exists a, addr = Addr a /\ _tag p = tag /\ _first p = true.
Proof.
  split; [done|]. intros addr p w'. unfold PlistSocket__init__, bind.
  destruct addr as [a|p1]; [|done].
  destruct (SafeStreamSocket__init__ a w) as [[c|e] w1]; [|done].
  intros [= <- <-]. by exists a.
Qed.

(** X16.  [is_secure] after an upgrade: true when [switch_to_ssl] has
    returned, as before when it has raised; the upgrade leaves the tag
    and the first-message flag of the channel alone.  A channel
    constructed by connecting is not secure. *)
Theorem is_secure_after_upgrade (pemfile : string) (w : world)
    (p : PlistSocket) :
  (is_secure (inherited_w (switch_to_ssl pemfile) (w, p)).2.2
   = match (inherited_w (switch_to_ssl pemfile) (w, p)).1 with
     | Return _ => true
     | Raise _ => is_secure p
     end) /\
  _tag (inherited_w (switch_to_ssl pemfile) (w, p)).2.2 = _tag p /\
  _first (inherited_w (switch_to_ssl pemfile) (w, p)).2.2 = _first p /\
  (forall a tag p0 w0,
     (forall s, a <> AddrSocket s) ->
     PlistSocket__init__ (Addr a) tag w = (Return p0, w0) ->
     is_secure p0 = false).
Proof.
  split; [|split; [|split]].
  1-3: unfold inherited_w, switch_to_ssl, is_secure;
    destruct (negb (path_isfile pemfile)); [done|];
    destruct (is_ssl (_sock (base p))) eqn:Hssl; [by rewrite ?Hssl|];
    destruct (sock_closed w (sock_id (_sock (base p)))); [by rewrite ?Hssl|];
    destruct (negb (load_cert_chain_ok pemfile)); [by rewrite ?Hssl|];
    destruct (negb (handshake_ok (sock_id (_sock (base p)))));
    by rewrite ?Hssl.
  intros a tag p0 w0 Ha. unfold PlistSocket__init__, bind.
  destruct (SafeStreamSocket__init__ a w) as [[c|e] w1] eqn:E; [|done].
  intros [= <- <-]. unfold is_secure. simpl.
  revert E. unfold SafeStreamSocket__init__, bind, lift_outcome.
  cbn [get_uniq_id].
  assert (Hconn : forall f sa s w2,
    socket_connect f sa (get_uniq_id w).2 = (Return s, w2) ->
    is_ssl s = false).
  { intros f sa s w2. unfold socket_connect.
    destruct sa; [| |done]; destruct (connect_peer f _);
      by intros [= <- <-]. }
  destruct a as [s|a|host port|]; cbv beta iota.
  - by destruct (Ha s).
  - destruct (init_family (AddrStr a)) as [[f sa]|e]; [|done].
    destruct (socket_connect _ _ _) as [[s|e] w2] eqn:Ec; [|done].
    intros [= <- <-]. by eapply Hconn.
  - change (init_family (AddrTuple host port))
      with (Return (AF_INET, HostPort host port)).
    cbv beta iota. cbn [fst snd].
    destruct (socket_connect _ _ _) as [[s|e] w2] eqn:Ec; [|done].
    intros [= <- <-]. by eapply Hconn.
  - done.
Qed.

(** X17.  An upgrade that fails with [SSLError] has made its duplicate
    already: the duplicate is in the list of the connection, which is
    open or closed as before, and a [close] after the failure calls
    [close()] on the sockets of before and on the duplicate.  When the
    certificate could not be loaded nothing else has happened.  When
    the handshake has failed, [wrap_socket] has detached the socket of
    the connection and has closed the SSL socket it had made: the
    connection is left with a socket that has no descriptor. *)
Theorem switch_to_ssl_failure_keeps_duplicate (pemfile : string)
    (w w1 : world) (c c1 : SafeStreamSocket) :
  owned_ok w c ->
  switch_to_ssl pemfile (w, c) = (Raise SSLError, (w1, c1)) ->
  exists dup_id,
    _sock_gclist c1 = _sock_gclist c ++ [dup_id] /\
    (dup_id ∉ _sock_gclist c) /\
    sock_id (_sock c1) = sock_id (_sock c) /\
    is_ssl (_sock c1) = false /\
    finalizer_alive c1 = finalizer_alive c /\
    owned_ok w1 c1 /\
    (finalizer_alive c = true ->
     events (close (w1, c1)).2.1
     = events w1 ++ map EvClose (_sock_gclist c) ++ [EvClose dup_id]) /\
    (load_cert_chain_ok pemfile = false ->
     events w1 = events w ++ [EvDup (sock_id (_sock c)) dup_id]) /\
    (load_cert_chain_ok pemfile = true ->
     events w1 = events w ++ [EvDup (sock_id (_sock c)) dup_id;
                              EvDetach (sock_id (_sock c));
                              EvHandshake (S dup_id);
                              EvClose (S dup_id)] /\
     sock_closed w1 (sock_id (_sock c1)) = true).
Proof.
  intros [Hnd Hlt]. unfold switch_to_ssl.
  destruct (negb (path_isfile pemfile)); [done|].
  destruct (is_ssl (_sock c)) eqn:Hssl; [done|].
  destruct (sock_closed w (sock_id (_sock c))); [done|].
  assert (Hfresh : next_sock_id w ∉ _sock_gclist c).
  { intros Hin. rewrite Forall_forall in Hlt. specialize (Hlt _ Hin). lia. }
  assert (Hnd' : NoDup (_sock_gclist c ++ [next_sock_id w])).
  { apply NoDup_app. split; [done|]. split; [|apply NoDup_singleton].
    intros x Hx Hx'%list_elem_of_singleton. by subst x. }
  assert (Hlt' : forall m, (S (next_sock_id w) <= m)%nat ->
                   Forall (λ id, (id < m)%nat)
                     (_sock_gclist c ++ [next_sock_id w])).
  { intros m Hm. apply Forall_app. split.
    - eapply Forall_impl; [exact Hlt|]. simpl. lia.
    - constructor; [lia | constructor]. }
  assert (Hclose : forall w' c',
    _sock_gclist c' = _sock_gclist c ++ [next_sock_id w] ->
    finalizer_alive c' = finalizer_alive c ->
    finalizer_alive c = true ->
    events (close (w', c')).2.1
    = events w' ++ map EvClose (_sock_gclist c) ++ [EvClose (next_sock_id w)]).
  { intros w' c' Hl Hal Ha. unfold close. rewrite Hal, Ha. cbn.
    by rewrite Hl, map_app. }
  destruct (negb (load_cert_chain_ok pemfile)) eqn:Hcert.
  - intros [= <- <-]. exists (next_sock_id w).
    apply negb_true_iff in Hcert.
    split; [done|]. split; [done|]. split; [done|]. split; [done|].
    split; [done|]. split; [split; [done | by apply Hlt']|].
    split; [by apply Hclose|]. split; [done|]. congruence.
  - destruct (negb (handshake_ok (sock_id (_sock c)))); [|done].
    intros [= <- <-]. exists (next_sock_id w).
    apply negb_false_iff in Hcert.
    split; [done|]. split; [done|]. split; [done|]. split; [done|].
    split; [done|]. split; [split; [done | apply Hlt'; simpl; lia]|].
    split; [by apply Hclose|]. split; [congruence|].
    intros _. cbn. split; [by rewrite <- !app_assoc|].
    unfold sock_closed. apply bool_decide_eq_true_2. right. cbn.
    set_solver.
Qed.

(** X18.  After an upgrade that has succeeded the socket of the
    connection is the SSL socket; it is not in the list of the
    connection, and [close] calls [close()] on the sockets of the list
    and not on it. *)
Theorem close_leaves_ssl_socket (pemfile : string) (w w1 : world)
    (c c1 : SafeStreamSocket) :
  owned_ok w c ->
  switch_to_ssl pemfile (w, c) = (Return tt, (w1, c1)) ->
  is_ssl (_sock c1) = true /\
  (sock_id (_sock c1) ∉ _sock_gclist c1) /\
  close_calls (close (w1, c1)).2.1 (sock_id (_sock c1))
  = close_calls w1 (sock_id (_sock c1)).
Proof.
  intros Hok E.
  destruct (switch_to_ssl_wrapper_not_listed pemfile w c w1 c1 Hok E)
    as [Hssl Hnot].
  split; [done|]. split; [done|].
  assert (Hnd : NoDup (_sock_gclist c1)).
  { by destruct (switch_to_ssl_returns pemfile w c w1 c1 Hok E)
      as (_ & _ & _ & _ & _ & _ & _ & _ & [Hnd _]). }
  unfold close. destruct (finalizer_alive c1); [|done]. cbn [snd fst].
  rewrite close_calls_cleanup by done.
  rewrite bool_decide_eq_false_2 by done. lia.
Qed.
End Construction.


Lemma SafeStreamSocket__init__outcomes_witness :
  @SafeStreamSocket__init__ demo_env (AddrStr "localhost:27015") demo_world
  = (Return (demo_connection []),
     {| _n := 1; next_sock_id := 1;
        events := [EvConnect 0 AF_INET (HostPort "localhost" 27015)] |}) /\
  _id (demo_connection []) = _n demo_world + 1.
Proof.
  split; [reflexivity|].
  destruct (@SafeStreamSocket__init__outcomes demo_env
              (AddrStr "localhost:27015") demo_world) as (_ & Hc & _).
  by destruct (Hc (demo_connection []) _ eq_refl) as [Hid _].
Defined.

Lemma switch_to_ssl_failure_keeps_duplicate_witness :
  exists dup_id,
    _sock_gclist (@switch_to_ssl demo_env_no_tls "/tmp/pair.pem"
                    (demo_started, demo_connection [])).2.2
    = [0%nat] ++ [dup_id] /\
    (dup_id ∉ [0%nat]) /\
    (finalizer_alive (demo_connection []) = true ->
     events (close (@switch_to_ssl demo_env_no_tls "/tmp/pair.pem"
                      (demo_started, demo_connection [])).2).2.1
     = events (@switch_to_ssl demo_env_no_tls "/tmp/pair.pem"
                 (demo_started, demo_connection [])).2.1
       ++ map EvClose [0%nat] ++ [EvClose dup_id]).
Proof.
  destruct (@switch_to_ssl_failure_keeps_duplicate demo_env_no_tls
              "/tmp/pair.pem" demo_started
              (@switch_to_ssl demo_env_no_tls "/tmp/pair.pem"
                 (demo_started, demo_connection [])).2.1
              (demo_connection [])
              (@switch_to_ssl demo_env_no_tls "/tmp/pair.pem"
                 (demo_started, demo_connection [])).2.2)
    as (dup_id & Hl & Hf & _ & _ & _ & _ & Hc & _).
  - split; [apply NoDup_singleton | repeat constructor].
  - reflexivity.
  - exists dup_id. done.
Defined.

Lemma close_leaves_ssl_socket_witness :
  is_ssl (_sock (@switch_to_ssl demo_env "/tmp/pair.pem"
                   (demo_started, demo_connection [])).2.2) = true /\
  close_calls (close (@switch_to_ssl demo_env "/tmp/pair.pem"
                        (demo_started, demo_connection [])).2).2.1 2 = 0%nat.
Proof.
  destruct (@close_leaves_ssl_socket demo_env "/tmp/pair.pem" demo_started
              (@switch_to_ssl demo_env "/tmp/pair.pem"
                 (demo_started, demo_connection [])).2.1
              (demo_connection [])
              (@switch_to_ssl demo_env "/tmp/pair.pem"
                 (demo_started, demo_connection [])).2.2)
    as (Hssl & _ & Hcalls).
  - split; [apply NoDup_singleton | repeat constructor].
  - reflexivity.
  - split; [exact Hssl | exact Hcalls].
Defined.

